(** * pgtools: column resolution, LRU cache of resolved columns, wildcard formatter

    A shallow embedding of [pgtools.go] (package pgtools):
    - [less], [sortSliceStable], [fieldsFrom], [fields]: the resolver
      [fields] and the comparator it hands to [sort.SliceStable];
    - [lru], [Fields]: the least-recently-used cache in front of it;
    - [Wildcard]: the expression builder;
    - [stepThread], [step]: callers of [Fields] that interleave statement
      by statement under the mutex of the cache.

    [structref.GetColumnToFieldIndexMap], which [fields] calls, is in a
    package that is not among the sources; [walk] models it from the
    specification.

    Go values are modelled as follows.  A [reflect.Type] is a term of
    [rtype]; an [interface{}] argument is [option gvalue] ([None] is the
    nil interface); a [[]int] index path is a [list Z]; a Go string is a
    [string] (a sequence of bytes); a [*list.Element] is an [Element], a
    pointer identity together with the payload stored behind it; a panic is
    the result [None] of a function into [option]. *)

From Stdlib Require Import ZArith Ascii String.
From stdpp Require Import gmap strings list sorting countable.

#[local] Set Warnings "-register-all".
#[local] Open Scope Z_scope.

(** ** Type descriptors *)

(** A struct field as the resolver sees it: its declared identifier (for
    an embedded field, the name of its type), the name override of its
    annotation (if any), the ignore marker, the opaque-leaf (serialized
    JSON) marker, and its type. *)
Inductive rtype : Type :=
| TBasic (kind : string)
| TPtr (elem : rtype)
| TStruct (fs : list sfield)
with sfield : Type :=
| SField (fname : string) (foverride : option string)
         (fignore fopaque : bool) (ftype : rtype).

Definition fname (f : sfield) : string := let 'SField n _ _ _ _ := f in n.
Definition foverride (f : sfield) : option string := let 'SField _ o _ _ _ := f in o.
Definition fignore (f : sfield) : bool := let 'SField _ _ b _ _ := f in b.
Definition fopaque (f : sfield) : bool := let 'SField _ _ _ b _ := f in b.
Definition ftype (f : sfield) : rtype := let 'SField _ _ _ _ t := f in t.

(** [reflect.Kind], as far as [Fields] looks at it. *)
Inductive Kind := Ptr | Struct | OtherKind.

Definition kindOf (t : rtype) : Kind :=
  match t with
  | TBasic _ => OtherKind
  | TPtr _ => Ptr
  | TStruct _ => Struct
  end.

(** Induction over descriptors that reaches the types of the fields. *)
Section rtype_induction.
Variable P : rtype → Prop.
Hypothesis Hbasic : ∀ k, P (TBasic k).
Hypothesis Hptr : ∀ e, P e → P (TPtr e).
Hypothesis Hstruct : ∀ fs, Forall (λ f, P (ftype f)) fs → P (TStruct fs).

Fixpoint rtype_nested_ind (t : rtype) : P t :=
  match t with
  | TBasic k => Hbasic k
  | TPtr e => Hptr e (rtype_nested_ind e)
  | TStruct fs =>
      Hstruct fs
        ((fix go (fs : list sfield) : Forall (λ f, P (ftype f)) fs :=
            match fs with
            | [] => Forall_nil _
            | f :: fs' =>
                Forall_cons _ f fs'
                  (match f return P (ftype f) with
                   | SField _ _ _ _ t' => rtype_nested_ind t'
                   end)
                  (go fs')
            end) fs)
  end.
End rtype_induction.

(** Descriptors are comparable and can be map keys: they embed into
    stdpp's generic trees. *)
Definition rleaf : Type := string + (option string * (bool * bool)).

Fixpoint rtype_enc (t : rtype) : gen_tree rleaf :=
  match t with
  | TBasic k => GenLeaf (inl k)
  | TPtr e => GenNode 0 [rtype_enc e]
  | TStruct fs =>
      GenNode 1
        ((fix go (fs : list sfield) : list (gen_tree rleaf) :=
            match fs with
            | [] => []
            | SField n o i q t' :: fs' =>
                GenNode 2 [GenLeaf (inl n); GenLeaf (inr (o, (i, q))); rtype_enc t']
                :: go fs'
            end) fs)
  end.

Fixpoint rtype_dec (g : gen_tree rleaf) : rtype :=
  match g with
  | GenLeaf (inl k) => TBasic k
  | GenNode 0 [e] => TPtr (rtype_dec e)
  | GenNode 1 gs =>
      TStruct
        ((fix go (gs : list (gen_tree rleaf)) : list sfield :=
            match gs with
            | GenNode 2 [GenLeaf (inl n); GenLeaf (inr (o, (i, q))); g'] :: gs' =>
                SField n o i q (rtype_dec g') :: go gs'
            | _ => []
            end) gs)
  | _ => TBasic EmptyString
  end.

Lemma rtype_dec_enc (t : rtype) : rtype_dec (rtype_enc t) = t.
Proof.
  induction t as [k|e IH|fs IH] using rtype_nested_ind; simpl.
  - reflexivity.
  - by rewrite IH.
  - f_equal. induction IH as [|[n o i q t'] fs' Ht _ IHfs]; simpl in *.
    + reflexivity.
    + by rewrite Ht, IHfs.
Qed.

#[global] Instance rtype_eq_dec : EqDecision rtype.
Proof.
  refine (λ x y,
    match decide (rtype_enc x = rtype_enc y) with
    | left H => left _
    | right H => right _
    end).
  - abstract (by rewrite <-(rtype_dec_enc x), <-(rtype_dec_enc y), H).
  - abstract (by intros ->).
Defined.

#[global] Instance rtype_countable : Countable rtype :=
  inj_countable' rtype_enc rtype_dec rtype_dec_enc.

(** An argument of type [interface{}]: the nil interface is [None];
    otherwise the dynamic type and, for what [Fields] could observe of the
    value, whether it is a nil pointer. *)
Record gvalue := GValue { dynType : rtype; isNilPtr : bool }.

Definition iface : Type := option gvalue.

(** ** The resolver: [fields] *)

(** [type column struct { indices []int; name string }] *)
Record column := Column { indices : list Z; name : string }.

#[global] Instance column_eq_dec : EqDecision column.
Proof. solve_decision. Defined.

(** The comparator handed to [sort.SliceStable], on the two index paths
    [a] and [b]: the [for] loop with its four-way [switch], each round
    dropping the heads of both paths. *)
Fixpoint less (a b : list Z) : bool :=
  match a with
  | [] => false
  | a0 :: a' =>
      match b with
      | [] => true
      | b0 :: b' =>
          if a0 <? b0 then true
          else if a0 >? b0 then false
          else less a' b'
      end
  end.

(** [sort.SliceStable]: the stable sort of a slice under a comparator.
    Elements that the comparator does not order keep their input order.
    The embedding is the stable insertion sort (the library sorts by
    insertion on short blocks and merges them stably). *)
Section stable_sort.
Context {A : Type} (lt : A → A → bool).

Fixpoint insertStable (x : A) (l : list A) : list A :=
  match l with
  | [] => [x]
  | y :: l' => if lt y x then y :: insertStable x l' else x :: y :: l'
  end.

Fixpoint sortSliceStable (l : list A) : list A :=
  match l with
  | [] => []
  | x :: l' => insertStable x (sortSliceStable l')
  end.
End stable_sort.

Definition lessColumn (c1 c2 : column) : bool := less (indices c1) (indices c2).

(** The body of [fields] after the [range] loop has filled [cs]: sort by
    index path, then keep the names. *)
Definition fieldsFrom (cs : list column) : list string :=
  name <$> sortSliceStable lessColumn cs.

(** The column that the [range] loop of [fields] appends for one entry of
    the map. *)
Definition entryColumn (kv : string * list Z) : column := Column kv.2 kv.1.

(** A [range] over a Go map visits every entry once, in an order the
    language leaves open: [cs] is a possible content of the slice that the
    loop of [fields] builds from the map [mp]. *)
Definition mapRange (mp : gmap string (list Z)) (cs : list column) : Prop :=
  cs ≡ₚ entryColumn <$> map_to_list mp.

Section pgtools.

(** The fixed case-conversion rule that derives a column name from a
    declared identifier. *)
Variable normalize : string → string.

(** The addressable name of a field: the override when there is one,
    otherwise the normalized identifier. *)
Definition columnName (f : sfield) : string :=
  match foverride f with
  | Some n => n
  | None => normalize (fname f)
  end.

Definition isStruct (t : rtype) : bool :=
  match t with TStruct _ => true | _ => false end.

(** Modelled from the spec: the traversal behind
    [structref.GetColumnToFieldIndexMap] (package internal/structref is not
    among the sources).  Fields are visited in declaration order; an
    ignored field contributes nothing, neither do its children; a field
    whose type is a composite and that is not marked opaque is not a
    column of its own but is expanded in place, its children prefixed by
    [<name>.]; every other field is a terminal column, recorded with its
    root-to-leaf index path.  Anything that is not a composite has no
    columns. *)
Fixpoint walk (prefix : string) (path : list Z) (t : rtype) : list (string * list Z) :=
  match t with
  | TStruct fs =>
      (fix walkFields (i : Z) (fs : list sfield) : list (string * list Z) :=
         match fs with
         | [] => []
         | f :: fs' =>
             (let 'SField _ _ ig op ft := f in
              if ig then []
              else if isStruct ft && negb op
                   then walk (prefix +:+ columnName f +:+ ".") (path ++ [i]) ft
                   else [(prefix +:+ columnName f, path ++ [i])])
             ++ walkFields (i + 1) fs'
         end) 0 fs
  | _ => []
  end.

(** Modelled from the spec: [structref.GetColumnToFieldIndexMap], the map
    from column name to index path that [fields] ranges over.  When two
    fields yield the same name the map keeps the first in declaration
    order. *)
Definition GetColumnToFieldIndexMap (rv : rtype) : gmap string (list Z) :=
  list_to_map (walk EmptyString [] rv).

(** [fields], with the map ranged over in the order [map_to_list] gives;
    [fields_order_irrelevant] shows that no other order changes the
    result. *)
Definition fields (rv : rtype) : list string :=
  fieldsFrom (entryColumn <$> map_to_list (GetColumnToFieldIndexMap rv)).

(** The traversal of [walk], one field and one field list at a time (for
    the proofs; [walk_struct] ties them to [walk]). *)
Definition walkField (prefix : string) (path : list Z) (i : Z) (f : sfield)
  : list (string * list Z) :=
  if fignore f then []
  else if isStruct (ftype f) && negb (fopaque f)
       then walk (prefix +:+ columnName f +:+ ".") (path ++ [i]) (ftype f)
       else [(prefix +:+ columnName f, path ++ [i])].

Fixpoint walkFrom (prefix : string) (path : list Z) (i : Z) (fs : list sfield)
  : list (string * list Z) :=
  match fs with
  | [] => []
  | f :: fs' => walkField prefix path i f ++ walkFrom prefix path (i + 1) fs'
  end.

(** ** The cache: [lru] and [Fields] *)

(** [type field struct { t reflect.Type; v []string }], the value kept in
    the linked list. *)
Record field := Field { t : rtype; v : list string }.

#[global] Instance field_eq_dec : EqDecision field.
Proof. solve_decision. Defined.

(** A [*list.Element] of [container/list]: the identity of the element
    (its address) and the [Value] stored in it.  [Fields] never writes to
    an element once [PushFront] has made it, so the pointer in the map and
    the element in the list always show the same value. *)
Record Element := mkElement { eid : nat; Value : field }.

#[global] Instance Element_eq_dec : EqDecision Element.
Proof. solve_decision. Defined.

(** [type lru struct { cap int; mu sync.Mutex; m map[reflect.Type]*list.Element; l *list.List }].
    The list is kept front first.  The mutex is held through the whole
    body of [Fields]; it has no part in the state between calls. *)
Record lru := Lru { cap : Z; m : gmap rtype Element; l : list Element }.

(** [var wildcardsCache = &lru{cap: 1000, m: map[...]{}, l: list.New()}] *)
Definition wildcardsCache : lru := {| cap := 1000; m := ∅; l := [] |}.

(** [container/list]: an element belongs to the list when its address is
    that of one of the list's elements. *)
Definition inList (e : Element) (es : list Element) : bool :=
  bool_decide (eid e ∈ eid <$> es).

(** [l.Remove(e)]: unlink [e] if it is an element of the list. *)
Definition Remove (e : Element) (es : list Element) : list Element :=
  filter (λ x, eid x ≠ eid e) es.

(** [l.MoveToFront(e)]: nothing happens when [e] is not an element of the
    list. *)
Definition MoveToFront (e : Element) (es : list Element) : list Element :=
  if inList e es then e :: Remove e es else es.

(** [l.Back()]: the last element, or nil. *)
Definition Back (es : list Element) : option Element := list.last es.

(** The address of a newly allocated element: one that no element
    reachable from the cache has. *)
Definition newElementId (c : lru) : nat :=
  S (max_list (eid <$> (l c ++ (map_to_list (m c)).*2))).

(** [l.PushFront(val)]: the new element and the list with it in front. *)
Definition PushFront (val : field) (c : lru) : Element * list Element :=
  let e := {| eid := newElementId c; Value := val |} in (e, e :: l c).

(** Lines 89-97 of [Fields]: the type the cache is asked for.  For a
    pointer it is the element type, taken from the type alone; for anything
    else [reflect.Indirect] returns the value itself and the type is the
    dynamic type. *)
Definition Elem (ty : rtype) : rtype :=
  match ty with TPtr e => e | _ => ty end.

Definition argType (gv : gvalue) : rtype :=
  match kindOf (dynType gv) with
  | Ptr => Elem (dynType gv)
  | _ => dynType gv
  end.

(** Lines 113-117: when the list is as long as the capacity, the back of
    the list is unlinked and its type deleted from the map.  [l.Remove] of
    the nil that [l.Back] returns for an empty list dereferences nil: a
    panic. *)
Definition evict (c : lru) : option lru :=
  if Z.of_nat (length (l c)) =? cap c then
    match Back (l c) with
    | None => None
    | Some oldest =>
        Some {| cap := cap c;
                m := delete (t (Value oldest)) (m c);
                l := Remove oldest (l c) |}
    end
  else Some c.

(** [Fields(v interface{}) []string] on the cache [c]: the cache after the
    call and the slice returned, or [None] for a panic.  The argument is
    named [arg] here, [v] being the field of [field]. *)
Definition Fields (c : lru) (arg : iface) : option (lru * list string) :=
  match arg with
  | None => Some (c, [])
  | Some gv =>
      let rv := argType gv in
      match m c !! rv with
      | Some cache =>
          Some ({| cap := cap c; m := m c; l := MoveToFront cache (l c) |},
                v (Value cache))
      | None =>
          match evict c with
          | None => None
          | Some c1 =>
              let columns := fields rv in
              let '(e, es) := PushFront {| t := rv; v := columns |} c1 in
              Some ({| cap := cap c1; m := <[rv := e]> (m c1); l := es |}, columns)
          end
      end
  end.

(** The cache after a sequence of calls, earliest first, starting from
    [c]; [None] once a call has panicked. *)
Fixpoint runFields (c : lru) (args : list iface) : option lru :=
  match args with
  | [] => Some c
  | arg :: args' =>
      match Fields c arg with
      | None => None
      | Some (c', _) => runFields c' args'
      end
  end.

(** ** The formatter: [Wildcard] *)

Definition dquote : string := String "034"%char EmptyString.

(** [strings.ContainsRune(s, r)] for a rune below 0x80: some byte of [s]
    is [r]. *)
Fixpoint ContainsRune (s : string) (r : ascii) : bool :=
  match s with
  | EmptyString => false
  | String a s' => if Ascii.eqb a r then true else ContainsRune s' r
  end.

(** Go's [len] of a string. *)
Definition len (s : string) : Z := Z.of_nat (String.length s).

(** Lines 41-44: the size handed to [b.Grow]. *)
Definition growSize (elems : list string) : Z :=
  fold_left (λ n s, n + len s) elems (len "," * (Z.of_nat (length elems) - 1)).

(** One round of the loop of lines 48-62, on the builder content [b]. *)
Definition writeElem (b : string) (n : nat) (s : string) : string :=
  let b := if bool_decide (n ≠ 0%nat) then b +:+ "," else b in
  let b := b +:+ dquote in
  let b := b +:+ s in
  let b := b +:+ dquote in
  if ContainsRune s "."%char
  then let b := b +:+ " as " +:+ dquote in
       let b := b +:+ s in
       b +:+ dquote
  else b.

Fixpoint writeElems (b : string) (n : nat) (elems : list string) : string :=
  match elems with
  | [] => b
  | s :: elems' => writeElems (writeElem b n s) (S n) elems'
  end.

(** Lines 38-63, what [Wildcard] does with the slice [Fields] returned.
    [b.Grow] panics on a negative size. *)
Definition joinColumns (elems : list string) : option string :=
  if bool_decide (length elems = 0%nat) then Some EmptyString
  else if growSize elems <? 0 then None
       else Some (writeElems EmptyString 0 elems).

(** [Wildcard(v interface{}) string] on the cache [c]. *)
Definition Wildcard (c : lru) (arg : iface) : option (lru * string) :=
  match Fields c arg with
  | None => None
  | Some (c', elems) =>
      match joinColumns elems with
      | None => None
      | Some s => Some (c', s)
      end
  end.

(** ** The invariant of the cache *)

(** The map and the list hold the same elements: every key leads to an
    element of the list that stores that key, every element of the list is
    what the map has under the type the element stores; the elements of the
    list are distinct; map and list have the same size, at most the
    capacity. *)
Definition cache_ok (c : lru) : Prop :=
  map_Forall (λ k e, e ∈ l c ∧ t (Value e) = k) (m c) ∧
  Forall (λ e, m c !! t (Value e) = Some e) (l c) ∧
  NoDup (eid <$> l c) ∧
  size (m c) = length (l c) ∧
  Z.of_nat (length (l c)) ≤ cap c.

(** Every cached slice is what the resolver computes for its type. *)
Definition cache_sound (c : lru) : Prop :=
  Forall (λ e, v (Value e) = fields (t (Value e))) (l c).

(** The inputs the resolution supports: a composite, or a pointer to a
    composite.  Everything else (the nil interface, a value of another
    kind, a pointer to anything else) is unsupported. *)
Definition supported (arg : iface) : bool :=
  match arg with
  | None => false
  | Some gv =>
      match dynType gv with
      | TStruct _ => true
      | TPtr (TStruct _) => true
      | _ => false
      end
  end.

(** ** The expression of the spec *)

(** A name in the identifier quotes. *)
Definition quoted (s : string) : string := dquote +:+ s +:+ dquote.

(** A name contains a dot. *)
Definition hasDot (s : string) : Prop := "."%char ∈ list_ascii_of_string s.

#[global] Instance hasDot_dec (s : string) : Decision (hasDot s).
Proof. unfold hasDot. apply _. Defined.

(** A column as the expression shows it: quoted, and followed by an alias
    to its own quoted name when it contains a dot. *)
Definition rendered (s : string) : string :=
  if decide (hasDot s) then quoted s +:+ " as " +:+ quoted s else quoted s.

(** ** Concurrent callers of [Fields] *)

(** Where a caller stands in [Fields], with the local variables it has
    set so far.  The statements that read or write the map or the list are
    separate steps, so that callers can interleave between any two of
    them. *)
Inductive pc : Type :=
| AtEntry                                              (* line 89 *)
| AtLock (rv : rtype)                                  (* line 98, [mu.Lock()] *)
| AtLookup (rv : rtype)                                (* line 107 *)
| AtMoveToFront (cache : Element)                      (* line 108 *)
| AtLen (rv : rtype)                                   (* line 113 *)
| AtBack (rv : rtype)                                  (* line 114 *)
| AtRemove (rv : rtype) (oldest : option Element)      (* line 115 *)
| AtDelete (rv : rtype) (oldest : Element)             (* line 116 *)
| AtResolve (rv : rtype)                               (* line 120 *)
| AtPushFront (rv : rtype) (columns : list string)     (* line 121, [PushFront] *)
| AtStore (rv : rtype) (e : Element) (columns : list string)  (* line 121, [m[rv] =] *)
| AtUnlock (out : list string)                         (* return, deferred [mu.Unlock()] *)
| Returned (out : list string)
| Panicked.

(** A caller: the argument of its call and where it stands. *)
Record thread := Thread { targ : iface; tpc : pc }.

(** The shared state: the mutex of [wildcardsCache] (locked or not), its
    map and list, and the callers. *)
Record world := World { mu : bool; cache : lru; threads : list thread }.

Definition setList (c : lru) (es : list Element) : lru :=
  {| cap := cap c; m := m c; l := es |}.

Definition setMap (c : lru) (mp : gmap rtype Element) : lru :=
  {| cap := cap c; m := mp; l := l c |}.

(** One step of a caller that stands at [p]: the mutex, the cache and the
    position after it; [None] when the caller cannot move ([Lock] on a
    locked mutex blocks; a caller that has returned is done).  A panic
    runs the deferred [Unlock]. *)
Definition stepThread (locked : bool) (c : lru) (arg : iface) (p : pc)
  : option (bool * lru * pc) :=
  match p with
  | AtEntry =>
      match arg with
      | None => Some (locked, c, Returned [])
      | Some gv => Some (locked, c, AtLock (argType gv))
      end
  | AtLock rv => if locked then None else Some (true, c, AtLookup rv)
  | AtLookup rv =>
      match m c !! rv with
      | Some e => Some (locked, c, AtMoveToFront e)
      | None => Some (locked, c, AtLen rv)
      end
  | AtMoveToFront e =>
      Some (locked, setList c (MoveToFront e (l c)), AtUnlock (v (Value e)))
  | AtLen rv =>
      if Z.of_nat (length (l c)) =? cap c
      then Some (locked, c, AtBack rv)
      else Some (locked, c, AtResolve rv)
  | AtBack rv => Some (locked, c, AtRemove rv (Back (l c)))
  | AtRemove rv None => Some (false, c, Panicked)
  | AtRemove rv (Some oldest) =>
      Some (locked, setList c (Remove oldest (l c)), AtDelete rv oldest)
  | AtDelete rv oldest =>
      Some (locked, setMap c (delete (t (Value oldest)) (m c)), AtResolve rv)
  | AtResolve rv => Some (locked, c, AtPushFront rv (fields rv))
  | AtPushFront rv columns =>
      let '(e, es) := PushFront {| t := rv; v := columns |} c in
      Some (locked, setList c es, AtStore rv e columns)
  | AtStore rv e columns => Some (locked, setMap c (<[rv := e]> (m c)), AtUnlock columns)
  | AtUnlock out => Some (false, c, Returned out)
  | Returned _ => None
  | Panicked => None
  end.

(** Any caller that can move may move next. *)
Inductive step : world → world → Prop :=
| step_thread (w : world) (i : nat) (th : thread) (locked' : bool) (c' : lru) (p' : pc) :
    threads w !! i = Some th →
    stepThread (mu w) (cache w) (targ th) (tpc th) = Some (locked', c', p') →
    step w {| mu := locked'; cache := c';
              threads := <[i := {| targ := targ th; tpc := p' |}]> (threads w) |}.

(** All callers at the entry of [Fields], the mutex free, the cache as
    the program initializes it. *)
Definition initWorld (args : list iface) : world :=
  {| mu := false; cache := wildcardsCache;
     threads := (λ arg, {| targ := arg; tpc := AtEntry |}) <$> args |}.

(** The callers of a schedule move one after the other; [None] when the
    schedule names a caller that cannot move. *)
Fixpoint runSchedule (w : world) (sched : list nat) : option world :=
  match sched with
  | [] => Some w
  | i :: sched' =>
      match threads w !! i with
      | None => None
      | Some th =>
          match stepThread (mu w) (cache w) (targ th) (tpc th) with
          | None => None
          | Some (locked', c', p') =>
              runSchedule {| mu := locked'; cache := c';
                             threads := <[i := {| targ := targ th; tpc := p' |}]> (threads w) |}
                          sched'
          end
      end
  end.

(** The positions between [Lock] and [Unlock]. *)
Definition inCS (p : pc) : bool :=
  match p with
  | AtEntry | AtLock _ | Returned _ | Panicked => false
  | _ => true
  end.

(** The positions whose step reads or writes the map or the list. *)
Definition touches (p : pc) : bool :=
  match p with
  | AtLookup _ | AtMoveToFront _ | AtLen _ | AtBack _ | AtRemove _ _
  | AtDelete _ _ | AtPushFront _ _ | AtStore _ _ _ => true
  | _ => false
  end.

Definition csCount (ths : list thread) : nat :=
  length (filter (λ th, inCS (tpc th) = true) ths).

(** What a call returns when it runs alone. *)
Definition expected (arg : iface) : list string :=
  match arg with
  | None => []
  | Some gv => fields (argType gv)
  end.

(** What the rest of the critical section makes of the cache [c], from
    the position [p], when nothing interleaves. *)
Definition finish (c : lru) (p : pc) : option (lru * list string) :=
  let fStore c rv e columns := Some (setMap c (<[rv := e]> (m c)), columns) in
  let fPush c rv columns :=
    let '(e, es) := PushFront {| t := rv; v := columns |} c in
    fStore (setList c es) rv e columns in
  let fResolve c rv := fPush c rv (fields rv) in
  let fDelete c rv oldest := fResolve (setMap c (delete (t (Value oldest)) (m c))) rv in
  let fRemove c rv o :=
    match o with
    | None => None
    | Some oldest => fDelete (setList c (Remove oldest (l c))) rv oldest
    end in
  let fBack c rv := fRemove c rv (Back (l c)) in
  let fLen c rv :=
    if Z.of_nat (length (l c)) =? cap c then fBack c rv else fResolve c rv in
  let fMove c e := Some (setList c (MoveToFront e (l c)), v (Value e)) in
  match p with
  | AtLookup rv =>
      match m c !! rv with
      | Some e => fMove c e
      | None => fLen c rv
      end
  | AtMoveToFront e => fMove c e
  | AtLen rv => fLen c rv
  | AtBack rv => fBack c rv
  | AtRemove rv o => fRemove c rv o
  | AtDelete rv oldest => fDelete c rv oldest
  | AtResolve rv => fResolve c rv
  | AtPushFront rv columns => fPush c rv columns
  | AtStore rv e columns => fStore c rv e columns
  | AtUnlock out => Some (c, out)
  | _ => None
  end.

(** What the interleaving keeps true of one caller: [c0] is the cache as
    the last [Unlock] left it, [c] the cache now. *)
Definition thread_inv (c0 c : lru) (th : thread) : Prop :=
  match tpc th with
  | AtEntry => True
  | AtLock rv => ∃ gv, targ th = Some gv ∧ rv = argType gv
  | Returned out => out = expected (targ th)
  | Panicked => False
  | p => ∃ gv, targ th = Some gv ∧ finish c p = Fields c0 (Some gv)
  end.

(** The interleaved run is a serial one: the completed calls, in the order
    of their [Unlock], make a sequence of calls that leaves the cache [c0];
    at most the holder of the mutex is past [Lock]; while the mutex is free
    the cache is [c0]. *)
Definition serial (w : world) : Prop :=
  ∃ (hist : list iface) (c0 : lru),
    runFields wildcardsCache hist = Some c0 ∧
    csCount (threads w) = (if mu w then 1 else 0)%nat ∧
    (mu w = false → cache w = c0) ∧
    Forall (thread_inv c0 (cache w)) (threads w).

(** ** Relations and abbreviations of the proofs *)

(** "Not after": [notAfter a b] says that the comparator does not put [b]
    before [a]. *)
Definition notAfter (a b : list Z) : Prop := less b a = false.

Definition columnNotAfter (c1 c2 : column) : Prop := notAfter (indices c1) (indices c2).

(** The paths under [path] whose next index is at least [i]. *)
Definition below (path : list Z) (i : Z) (q : list Z) : Prop :=
  ∃ (j : Z) (r : list Z), q = path ++ j :: r ∧ i ≤ j.

(** What a caller counts for in [csCount]. *)
Definition csWeight (th : thread) : nat := if inCS (tpc th) then 1%nat else 0%nat.

Ltac split_cache_ok :=
  unfold cache_ok; simpl; split; [|split; [|split; [|split]]].

(** ** Concrete types, caches and callers for the runs at the end *)

(** The composite of the order-fidelity scenario: fields [A], [B], [C] in
    this order, [C] a composite with the fields [D] and [E]. *)
Definition typeABC : rtype :=
  TStruct [SField "A" None false false (TBasic "string");
           SField "B" None false false (TBasic "int");
           SField "C" None false false
             (TStruct [SField "D" None false false (TBasic "string");
                       SField "E" None false false (TBasic "bool")])].

(** One order in which a [range] may visit the four map entries. *)
Definition rangeABC : list column :=
  [Column [2; 1] "C.E"; Column [0] "A"; Column [2; 0] "C.D"; Column [1] "B"].

(** An instance of the case-conversion rule for the runs below: ASCII
    lower-casing. *)
Definition lowerAscii (a : ascii) : ascii :=
  let n := nat_of_ascii a in
  if (65 <=? n)%nat && (n <=? 90)%nat then ascii_of_nat (n + 32) else a.

Fixpoint toLower (s : string) : string :=
  match s with
  | EmptyString => EmptyString
  | String a s' => String (lowerAscii a) (toLower s')
  end.

(** Three one-field composites, and a cache of capacity two that holds the
    first two, [typeB] asked for last. *)
Definition typeA : rtype := TStruct [SField "ID" None false false (TBasic "int")].
Definition typeB : rtype := TStruct [SField "Name" None false false (TBasic "string")].
Definition typeC : rtype := TStruct [SField "Zip" None false false (TBasic "string")].

Definition valueOf (ty : rtype) : iface := Some {| dynType := ty; isNilPtr := false |}.

Definition elemA : Element := {| eid := 1; Value := {| t := typeA; v := ["id"]%string |} |}.
Definition elemB : Element := {| eid := 2; Value := {| t := typeB; v := ["name"]%string |} |}.

Definition cacheBA : lru :=
  {| cap := 2; m := <[typeB := elemB]> (<[typeA := elemA]> ∅); l := [elemB; elemA] |}.

(** The composite of the concrete scenario: [ID], [Name], and [Address]
    with [City] and [Zip]. *)
Definition typeUser : rtype :=
  TStruct [SField "ID" None false false (TBasic "string");
           SField "Name" None false false (TBasic "string");
           SField "Address" None false false
             (TStruct [SField "City" None false false (TBasic "string");
                       SField "Zip" None false false (TBasic "string")])].

Definition columnsUser : list string := ["id"; "name"; "address.city"; "address.zip"]%string.

(** Two callers ask for [typeA], one with a value and one with a nil
    pointer to it.  Both enter, the first takes the mutex, misses, resolves
    and stores; the second gets the mutex after the [Unlock] and hits. *)
Definition twoCallers : list iface :=
  [valueOf typeA; Some {| dynType := TPtr typeA; isNilPtr := true |}].

Definition scheduleTwo : list nat :=
  [0; 1; 0; 0; 0; 0; 0; 0; 0; 1; 1; 1; 1]%nat.

(** ** Further notions for the properties beyond the claims *)

(** The standard lexicographic order on index paths, in which a path comes
    before every path it is a strict prefix of. *)
Fixpoint lexLess (a b : list Z) : bool :=
  match a, b with
  | [], [] => false
  | [], _ :: _ => true
  | _ :: _, [] => false
  | a0 :: a', b0 :: b' =>
      if a0 <? b0 then true else if b0 <? a0 then false else lexLess a' b'
  end.

(** The types held by the list of the cache, front first. *)
Definition cachedTypes (c : lru) : list rtype := (λ e, t (Value e)) <$> l c.

(** Recency order: [touch R x] is the order [R], most recently used
    first, after [x] has been used. *)
Definition touch (R : list rtype) (x : rtype) : list rtype :=
  x :: filter (λ y, y ≠ x) R.

(** The distinct types of a sequence of uses (earliest first), most
    recently used first. *)
Definition recency (uses : list rtype) : list rtype := foldl touch [] uses.

(** The types that a sequence of calls asks the cache for: a call with the
    nil interface asks for none. *)
Definition askedTypes (args : list iface) : list rtype :=
  omap (λ arg : iface, argType <$> arg) args.

(** What the alias of a column adds to the expression: nothing for a
    column without a dot. *)
Definition aliasSize (s : string) : Z :=
  if ContainsRune s "."%char then len " as " + len dquote + len s + len dquote else 0.

(** How many steps a caller between [Lock] and [Unlock] has before it at
    most, the [Unlock] included. *)
Definition csRank (p : pc) : nat :=
  match p with
  | AtLookup _ => 9
  | AtLen _ => 8
  | AtBack _ => 7
  | AtRemove _ _ => 6
  | AtDelete _ _ => 5
  | AtResolve _ => 4
  | AtPushFront _ _ => 3
  | AtStore _ _ _ => 2
  | AtMoveToFront _ => 2
  | AtUnlock _ => 1
  | _ => 0
  end%nat.

(** The bytes of a string. *)
Definition bytes (s : string) : list ascii := list_ascii_of_string s.

(** A name without a double quote in it. *)
Definition quoteFree (s : string) : Prop := "034"%char ∉ bytes s.

(** The bytes that [Wildcard] writes for the columns after the first. *)
Fixpoint joinTail (elems : list string) : list ascii :=
  match elems with
  | [] => []
  | s :: elems' => ","%char :: bytes (rendered s) ++ joinTail elems'
  end.

(** * Properties *)

(** ** The comparator is the lexicographic order with the end of a path
       above every index *)

Lemma less_cons (a0 b0 : Z) (a b : list Z) :
  less (a0 :: a) (b0 :: b) = if decide (a0 = b0) then less a b else bool_decide (a0 < b0).
Proof.
  simpl. case_decide as Heq.
  - subst. by rewrite Z.ltb_irrefl, Z.gtb_ltb, Z.ltb_irrefl.
  - destruct (Z.ltb_spec a0 b0) as [Hlt|Hge].
    + by rewrite bool_decide_eq_true_2.
    + rewrite bool_decide_eq_false_2 by lia.
      rewrite Z.gtb_ltb. destruct (Z.ltb_spec b0 a0); [reflexivity | lia].
Qed.

Lemma less_nil_l (b : list Z) : less [] b = false.
Proof. reflexivity. Qed.

Lemma less_nil_r (a : list Z) : less a [] = bool_decide (a ≠ []).
Proof. by destruct a. Qed.

Lemma less_irrefl (a : list Z) : less a a = false.
Proof.
  induction a as [|x a IH]; [reflexivity|].
  rewrite less_cons. by rewrite decide_True.
Qed.

Lemma less_asym (a b : list Z) : less a b = true → less b a = false.
Proof.
  revert b. induction a as [|x a IH]; intros [|y b]; try done.
  rewrite !less_cons. repeat case_decide; subst; try done.
  - apply IH.
  - rewrite bool_decide_eq_true, bool_decide_eq_false. lia.
Qed.

Lemma less_trans (a b c : list Z) :
  less a b = true → less b c = true → less a c = true.
Proof.
  revert b c. induction a as [|x a IH]; intros [|y b] [|z c]; try done.
  rewrite !less_cons. repeat case_decide; subst; try done;
    rewrite ?bool_decide_eq_true; try lia.
  apply IH.
Qed.

Lemma less_total (a b : list Z) : less a b = false → less b a = false → a = b.
Proof.
  revert b. induction a as [|x a IH]; intros [|y b]; try done.
  rewrite !less_cons. repeat case_decide; subst; try done.
  - intros. f_equal. by apply IH.
  - rewrite !bool_decide_eq_false. lia.
Qed.

Lemma less_app (p a b : list Z) : less (p ++ a) (p ++ b) = less a b.
Proof.
  induction p as [|x p IH]; [reflexivity|].
  rewrite <-!app_comm_cons, less_cons. by rewrite decide_True.
Qed.

Lemma notAfter_trans (a b c : list Z) : notAfter a b → notAfter b c → notAfter a c.
Proof.
  unfold notAfter. intros Hba Hcb.
  destruct (less c a) eqn:Hca; [|reflexivity].
  destruct (less b c) eqn:Hbc.
  - by rewrite (less_trans _ _ _ Hbc Hca) in Hba.
  - rewrite (less_total _ _ Hbc Hcb) in Hba. congruence.
Qed.

(** ** The stable sort *)

Section stable_sort_correct.
Context {A : Type} (lt : A → A → bool).

Hypothesis lt_asym : ∀ x y, lt x y = true → lt y x = false.
Hypothesis le_trans : ∀ x y z, lt y x = false → lt z y = false → lt z x = false.

Lemma insertStable_perm (x : A) (l : list A) : insertStable lt x l ≡ₚ x :: l.
Proof.
  induction l as [|y l IH]; simpl; [done|].
  destruct (lt y x); [|done]. by rewrite IH, Permutation_swap.
Qed.

Lemma sortSliceStable_perm (l : list A) : sortSliceStable lt l ≡ₚ l.
Proof.
  induction l as [|x l IH]; simpl; [done|].
  by rewrite insertStable_perm, IH.
Qed.

Lemma insertStable_sorted (x : A) (l : list A) :
  StronglySorted (λ a b, lt b a = false) l →
  StronglySorted (λ a b, lt b a = false) (insertStable lt x l).
Proof.
  induction 1 as [|y l Hl IH Hy]; simpl.
  - repeat constructor.
  - destruct (lt y x) eqn:Hyx.
    + constructor; [done|].
      rewrite insertStable_perm. constructor; [by apply lt_asym | done].
    + constructor; [by constructor|].
      constructor; [done|].
      rewrite list.Forall_forall in Hy |- *. intros z Hz. eapply le_trans; eauto.
Qed.

Lemma sortSliceStable_sorted (l : list A) :
  StronglySorted (λ a b, lt b a = false) (sortSliceStable lt l).
Proof.
  induction l as [|x l IH]; simpl; [constructor|]. by apply insertStable_sorted.
Qed.
End stable_sort_correct.

Lemma sortColumns_perm (cs : list column) : sortSliceStable lessColumn cs ≡ₚ cs.
Proof. apply sortSliceStable_perm. Qed.

Lemma sortColumns_sorted (cs : list column) :
  StronglySorted (λ c1 c2, notAfter (indices c1) (indices c2))
    (sortSliceStable lessColumn cs).
Proof.
  apply (sortSliceStable_sorted lessColumn).
  - intros x y. apply less_asym.
  - intros x y z. apply (notAfter_trans (indices x) (indices y) (indices z)).
Qed.

Lemma StronglySorted_lookup {A : Type} (R : relation A) (l : list A) (i j : nat) (x y : A) :
  StronglySorted R l → (i < j)%nat → l !! i = Some x → l !! j = Some y → R x y.
Proof.
  intros Hl. revert i j. induction Hl as [|z l Hl IH Hz]; intros i j Hij Hi Hj; [done|].
  destruct j as [|j]; [lia|]. destruct i as [|i]; simpl in *.
  - simplify_eq. rewrite list.Forall_forall in Hz. apply Hz. by eapply list_elem_of_lookup_2.
  - apply (IH i j); [lia|done..].
Qed.

(** C1 (as amended): [fields] sorts the discovered columns by index path
    in lexicographic order.  The sorted slice holds the same columns, no
    column is followed by one the comparator puts before it, the
    comparator decides on the first indices and descends to the rest of
    both paths when they tie, and where one path is a strict prefix of
    another it is the longer path that sorts first. *)
Theorem fields_sorts_by_index_path (cs : list column) :
  sortSliceStable lessColumn cs ≡ₚ cs ∧
  (∀ (i j : nat) (c1 c2 : column),
     (i < j)%nat →
     sortSliceStable lessColumn cs !! i = Some c1 →
     sortSliceStable lessColumn cs !! j = Some c2 →
     less (indices c2) (indices c1) = false) ∧
  (∀ (a0 b0 : Z) (a b : list Z),
     less (a0 :: a) (b0 :: b)
     = if decide (a0 = b0) then less a b else bool_decide (a0 < b0)) ∧
  (∀ (p : list Z) (x : Z) (r : list Z),
     less (p ++ x :: r) p = true ∧ less p (p ++ x :: r) = false).
Proof.
  split; [apply sortColumns_perm|].
  split.
  { intros i j c1 c2 Hij H1 H2.
    exact (StronglySorted_lookup _ _ i j c1 c2 (sortColumns_sorted cs) Hij H1 H2). }
  split; [apply less_cons|].
  intros p x r.
  assert (less (p ++ x :: r) p = true) as Hlt.
  { rewrite <-(app_nil_r p) at 2. rewrite less_app. reflexivity. }
  split; [exact Hlt | by apply less_asym].
Qed.

(** ** The traversal lists the columns in increasing path order *)

Lemma walk_struct (prefix : string) (path : list Z) (fs : list sfield) :
  walk prefix path (TStruct fs) = walkFrom prefix path 0 fs.
Proof.
  simpl. generalize 0. induction fs as [|[n o ig op ft] fs IH]; intros i.
  - reflexivity.
  - simpl. by rewrite IH.
Qed.

Lemma walk_not_struct (prefix : string) (path : list Z) (t : rtype) :
  isStruct t = false → walk prefix path t = [].
Proof. by destruct t. Qed.

Lemma below_less (path : list Z) (i : Z) (q1 q2 : list Z) :
  (∃ r, q1 = path ++ i :: r) → below path (i + 1) q2 → less q1 q2 = true.
Proof.
  intros [r ->] (j & r' & -> & Hj).
  rewrite less_app, less_cons. rewrite decide_False by lia.
  apply bool_decide_eq_true_2. lia.
Qed.

Lemma walk_increasing (t : rtype) (prefix : string) (path : list Z) :
  StronglySorted (λ q1 q2, less q1 q2 = true) (walk prefix path t).*2 ∧
  Forall (λ q, ∃ r, q = path ++ r ∧ r ≠ []) (walk prefix path t).*2.
Proof.
  revert prefix path.
  induction t as [k|e _|fs IH] using rtype_nested_ind; intros prefix path;
    [split; constructor..|].
  rewrite walk_struct.
  cut (∀ i, StronglySorted (λ q1 q2, less q1 q2 = true) (walkFrom prefix path i fs).*2 ∧
            Forall (below path i) (walkFrom prefix path i fs).*2).
  { intros Hcut. destruct (Hcut 0) as [Hs Hb]. split; [exact Hs|].
    eapply list.Forall_impl; [exact Hb|]. intros q (j & r & -> & _). by exists (j :: r). }
  induction IH as [|f fs Hf _ IHfs]; intros i; simpl; [split; constructor|].
  destruct (IHfs (i + 1)) as [Hs Hb].
  assert (StronglySorted (λ q1 q2, less q1 q2 = true) (walkField prefix path i f).*2 ∧
          Forall (λ q, ∃ r, q = path ++ i :: r) (walkField prefix path i f).*2)
    as [Hfs Hfb].
  { unfold walkField. destruct (fignore f); [split; constructor|].
    destruct (isStruct (ftype f) && negb (fopaque f)).
    - destruct (Hf (prefix +:+ columnName f +:+ ".") (path ++ [i])) as [Hs' Hb'].
      split; [exact Hs'|]. eapply list.Forall_impl; [exact Hb'|].
      intros q (r & -> & Hr). destruct r as [|j r]; [done|].
      exists (j :: r). by rewrite <-app_assoc.
    - simpl. split; [repeat constructor|]. constructor; [|constructor]. by exists []. }
  rewrite fmap_app. split.
  - apply StronglySorted_app_2; [|done..].
    intros q1 q2 Hq1 Hq2. rewrite list.Forall_forall in Hfb, Hb.
    eapply below_less; eauto.
  - apply Forall_app. split.
    + eapply list.Forall_impl; [exact Hfb|]. intros q [r ->]. exists i, r. split; [done|lia].
    + eapply list.Forall_impl; [exact Hb|].
      intros q (j & r & -> & Hj). exists j, r. split; [done|lia].
Qed.

(** ** A sorted slice is determined by its columns when paths are distinct *)

Lemma sorted_slices_agree (l1 l2 : list column) :
  l1 ≡ₚ l2 →
  (∀ x y, x ∈ l1 → y ∈ l1 → indices x = indices y → x = y) →
  StronglySorted columnNotAfter l1 → StronglySorted columnNotAfter l2 → l1 = l2.
Proof.
  intros Hp Hinj H1 H2.
  apply (StronglySorted_unique_strong columnNotAfter); [|done..].
  intros x y Hx Hy Hxy Hyx. apply Hinj; [done|by rewrite Hp|].
  by apply less_total.
Qed.

Lemma increasing_paths_distinct (l : list column) :
  StronglySorted (λ c1 c2, less (indices c1) (indices c2) = true) l →
  ∀ x y, x ∈ l → y ∈ l → indices x = indices y → x = y.
Proof.
  induction 1 as [|z l Hl IH Hz]; intros x y Hx Hy Hxy; [by inv Hx|].
  rewrite list.Forall_forall in Hz.
  inv Hx; inv Hy; try done.
  - match goal with H : y ∈ l |- _ => apply Hz in H as Hlt end.
    rewrite Hxy, less_irrefl in Hlt. done.
  - match goal with H : x ∈ l |- _ => apply Hz in H as Hlt end.
    rewrite <-Hxy, less_irrefl in Hlt. done.
  - by apply IH.
Qed.

Lemma sortColumns_of_increasing (cs l : list column) :
  cs ≡ₚ l →
  StronglySorted (λ c1 c2, less (indices c1) (indices c2) = true) l →
  sortSliceStable lessColumn cs = l.
Proof.
  intros Hp Hl. symmetry. apply sorted_slices_agree.
  - by rewrite sortColumns_perm.
  - by apply increasing_paths_distinct.
  - clear Hp. induction Hl as [|z l' Hl' IH Hz]; [constructor|].
    constructor; [done|].
    eapply list.Forall_impl; [exact Hz|]. intros c. apply less_asym.
  - apply sortColumns_sorted.
Qed.

Lemma sortColumns_order_irrelevant (cs1 cs2 : list column) :
  cs1 ≡ₚ cs2 →
  (∀ x y, x ∈ cs1 → y ∈ cs1 → indices x = indices y → x = y) →
  sortSliceStable lessColumn cs1 = sortSliceStable lessColumn cs2.
Proof.
  intros Hp Hinj. apply sorted_slices_agree; try apply sortColumns_sorted.
  - by rewrite !sortColumns_perm.
  - intros x y. rewrite !sortColumns_perm. apply Hinj.
Qed.

Lemma StronglySorted_fmap_inv {A B : Type} (f : A → B) (R : relation B) (l : list A) :
  StronglySorted R (f <$> l) → StronglySorted (λ x y, R (f x) (f y)) l.
Proof.
  induction l as [|x l IH]; simpl; intros Hl; [constructor|].
  inv Hl. constructor; [by apply IH|].
  by apply list.Forall_fmap.
Qed.

Lemma walk_columns_increasing (prefix : string) (path : list Z) (t : rtype) :
  StronglySorted (λ c1 c2, less (indices c1) (indices c2) = true)
    (entryColumn <$> walk prefix path t).
Proof.
  destruct (walk_increasing t prefix path) as [Hs _].
  apply StronglySorted_fmap_inv in Hs.
  eapply (StronglySorted_fmap entryColumn); [|exact Hs]. done.
Qed.

Lemma map_entry_walked (rv : rtype) (c : column) :
  c ∈ entryColumn <$> map_to_list (GetColumnToFieldIndexMap rv) →
  c ∈ entryColumn <$> walk EmptyString [] rv.
Proof.
  rewrite !list_elem_of_fmap. intros ([n p] & -> & Hin).
  exists (n, p). split; [done|].
  apply elem_of_map_to_list in Hin. by apply elem_of_list_to_map_2 in Hin.
Qed.

Lemma map_entries_paths_distinct (rv : rtype) (x y : column) :
  x ∈ entryColumn <$> map_to_list (GetColumnToFieldIndexMap rv) →
  y ∈ entryColumn <$> map_to_list (GetColumnToFieldIndexMap rv) →
  indices x = indices y → x = y.
Proof.
  intros Hx%map_entry_walked Hy%map_entry_walked.
  by apply (increasing_paths_distinct _ (walk_columns_increasing EmptyString [] rv)).
Qed.

(** Whatever order the [range] loop of [fields] visits the map in, the
    result is that of [fields]. *)
Lemma fields_order_irrelevant (rv : rtype) (cs : list column) :
  mapRange (GetColumnToFieldIndexMap rv) cs → fieldsFrom cs = fields rv.
Proof.
  unfold mapRange, fields, fieldsFrom. intros Hp. f_equal.
  apply sortColumns_order_irrelevant; [done|].
  intros x y. rewrite !Hp. apply map_entries_paths_distinct.
Qed.

Lemma fields_walk (rv : rtype) :
  NoDup (walk EmptyString [] rv).*1 → fields rv = (walk EmptyString [] rv).*1.
Proof.
  intros Hnd. unfold fields, fieldsFrom.
  rewrite (sortColumns_of_increasing _ (entryColumn <$> walk EmptyString [] rv)).
  - rewrite <-list_fmap_compose. done.
  - unfold GetColumnToFieldIndexMap. by rewrite map_to_list_to_map.
  - apply walk_columns_increasing.
Qed.

Lemma fields_not_struct (rv : rtype) : isStruct rv = false → fields rv = [].
Proof.
  intros Hrv. unfold fields, GetColumnToFieldIndexMap.
  rewrite walk_not_struct by done. simpl. by rewrite map_to_list_empty.
Qed.

Lemma StronglySorted_filter {A : Type} (R : relation A) (P : A → Prop)
    `{!∀ x, Decision (P x)} (xs : list A) :
  StronglySorted R xs → StronglySorted R (filter P xs).
Proof.
  induction 1 as [|x xs Hxs IH Hx]; [constructor|].
  destruct (decide (P x)).
  - rewrite filter_cons_True by done. constructor; [done|].
    rewrite list.Forall_forall in Hx |- *. intros y Hy.
    apply Hx. by apply list_elem_of_filter in Hy as [_ ?].
  - by rewrite filter_cons_False.
Qed.

Lemma increasing_NoDup (ps : list (list Z)) :
  StronglySorted (λ q1 q2, less q1 q2 = true) ps → NoDup ps.
Proof.
  induction 1 as [|p ps Hps IH Hp]; constructor; [|done].
  intros Hin. rewrite list.Forall_forall in Hp.
  specialize (Hp p Hin). by rewrite less_irrefl in Hp.
Qed.

(** The columns that [fields] returns are the entries of the map, in the
    order of the traversal. *)
Lemma fields_kept (rv : rtype) (cs : list column) :
  mapRange (GetColumnToFieldIndexMap rv) cs →
  fieldsFrom cs
  = (filter (λ kv, kv ∈ map_to_list (GetColumnToFieldIndexMap rv))
       (walk EmptyString [] rv)).*1.
Proof.
  intros Hcs. unfold fieldsFrom.
  set (M := GetColumnToFieldIndexMap rv) in *.
  set (W := walk EmptyString [] rv).
  set (kept := filter (λ kv, kv ∈ map_to_list M) W).
  destruct (walk_increasing rv EmptyString []) as [Hinc _]. fold W in Hinc.
  assert (kept ≡ₚ map_to_list M) as Hkept.
  { apply NoDup_Permutation.
    - apply list.NoDup_filter. apply (NoDup_fmap_1 snd). by apply increasing_NoDup.
    - apply NoDup_map_to_list.
    - intros [n p]. unfold kept. rewrite list_elem_of_filter.
      split; [by intros [? _]|]. intros Hin. split; [done|].
      apply elem_of_map_to_list in Hin. by apply elem_of_list_to_map_2 in Hin. }
  rewrite (sortColumns_of_increasing cs (entryColumn <$> kept)).
  - by rewrite <-list_fmap_compose.
  - unfold mapRange in Hcs. by rewrite Hcs, Hkept.
  - apply StronglySorted_fmap_inv in Hinc.
    eapply (StronglySorted_fmap entryColumn); [|by apply StronglySorted_filter, Hinc].
    done.
Qed.

(** C3: the resolved column list follows declaration order, through nested
    composites too.  Whatever order the [range] loop visits the map in,
    the names come out as a subsequence of the declaration-order traversal
    that has every name of the traversal; it is the whole traversal when
    the names of the type are pairwise distinct. *)
Theorem fields_declaration_order (rv : rtype) (cs : list column) :
  mapRange (GetColumnToFieldIndexMap rv) cs →
  (∃ kept, sublist kept (walk EmptyString [] rv) ∧
           fieldsFrom cs = kept.*1 ∧
           ∀ n, n ∈ (walk EmptyString [] rv).*1 → n ∈ kept.*1) ∧
  (NoDup (walk EmptyString [] rv).*1 → fieldsFrom cs = (walk EmptyString [] rv).*1).
Proof.
  intros Hcs. split.
  - exists (filter (λ kv, kv ∈ map_to_list (GetColumnToFieldIndexMap rv))
              (walk EmptyString [] rv)).
    split; [apply sublist_filter|]. split; [by apply fields_kept|].
    intros n Hn.
    destruct (GetColumnToFieldIndexMap rv !! n) as [p|] eqn:Hlook.
    + apply list_elem_of_fmap. exists (n, p). split; [done|].
      apply list_elem_of_filter. split; [by apply elem_of_map_to_list|].
      by apply elem_of_list_to_map_2.
    + by apply not_elem_of_list_to_map in Hlook.
  - intros Hnd. rewrite (fields_order_irrelevant rv cs Hcs). by apply fields_walk.
Qed.

(** ** The list operations *)

Lemma Remove_elem_of (e x : Element) (es : list Element) :
  x ∈ Remove e es ↔ x ∈ es ∧ eid x ≠ eid e.
Proof. unfold Remove. rewrite list_elem_of_filter. tauto. Qed.

Lemma Remove_absent (e : Element) (es : list Element) :
  eid e ∉ eid <$> es → Remove e es = es.
Proof.
  intros Hne. unfold Remove. induction es as [|x es IH]; [done|].
  rewrite fmap_cons, not_elem_of_cons in Hne. destruct Hne as [Hx Hes].
  rewrite filter_cons_True by done. by rewrite IH.
Qed.

Lemma Remove_NoDup (e : Element) (es : list Element) :
  NoDup (eid <$> es) → NoDup (eid <$> Remove e es).
Proof.
  intros Hnd. unfold Remove. induction es as [|x es IH]; [done|].
  rewrite fmap_cons, list.NoDup_cons in Hnd. destruct Hnd as [Hx Hes].
  destruct (decide (eid x ≠ eid e)).
  - rewrite filter_cons_True by done. rewrite fmap_cons, list.NoDup_cons.
    split; [|by apply IH].
    rewrite list_elem_of_fmap in Hx |- *. intros (y & Hy & Hin).
    apply Hx. exists y. split; [done|]. by apply list_elem_of_filter in Hin as [_ ?].
  - rewrite filter_cons_False by done. by apply IH.
Qed.

(** Unlinking an element of the list and putting it in front permutes the
    list. *)
Lemma Remove_cons_perm (e : Element) (es : list Element) :
  NoDup (eid <$> es) → e ∈ es → e :: Remove e es ≡ₚ es.
Proof.
  intros Hnd Hin. induction es as [|x es IH]; [by inv Hin|].
  rewrite fmap_cons, list.NoDup_cons in Hnd. destruct Hnd as [Hx Hes].
  unfold Remove. apply elem_of_cons in Hin as [->|Hin].
  - rewrite filter_cons_False by (intros Hne; by apply Hne).
    fold (Remove x es). by rewrite Remove_absent.
  - assert (eid x ≠ eid e) as Hne.
    { intros Heq. apply Hx. rewrite Heq. by apply list_elem_of_fmap_2. }
    rewrite filter_cons_True by done. fold (Remove e es).
    rewrite Permutation_swap. by rewrite IH.
Qed.

Lemma Remove_length (e : Element) (es : list Element) :
  NoDup (eid <$> es) → e ∈ es → S (length (Remove e es)) = length es.
Proof. intros Hnd Hin. by rewrite <-(Remove_cons_perm e es Hnd Hin) at 2. Qed.

(** Unlinking the back of the list leaves the elements before it. *)
Lemma Remove_back (old : Element) (es0 : list Element) :
  NoDup (eid <$> (es0 ++ [old])) → Remove old (es0 ++ [old]) = es0.
Proof.
  rewrite fmap_app, list.NoDup_app. intros (_ & Hdisj & _).
  unfold Remove. rewrite list.filter_app.
  rewrite filter_cons_False by (intros Hne; by apply Hne).
  rewrite filter_nil, app_nil_r. fold (Remove old es0).
  apply Remove_absent. intros Hin. apply (Hdisj _ Hin). simpl. left.
Qed.

(** Moving an element of the list to the front: the elements before it and
    after it keep their order behind it. *)
Lemma MoveToFront_split (e : Element) (es1 es2 : list Element) :
  NoDup (eid <$> (es1 ++ e :: es2)) →
  MoveToFront e (es1 ++ e :: es2) = e :: es1 ++ es2.
Proof.
  intros Hnd. unfold MoveToFront, inList.
  rewrite bool_decide_eq_true_2
    by (apply list_elem_of_fmap_2, elem_of_app; right; left).
  f_equal. rewrite fmap_app, fmap_cons in Hnd.
  apply list.NoDup_app in Hnd as (_ & Hdisj & Hnd2). apply list.NoDup_cons in Hnd2 as [He2 _].
  unfold Remove. rewrite list.filter_app.
  rewrite filter_cons_False by (intros Hne; by apply Hne).
  fold (Remove e es1) (Remove e es2).
  rewrite !Remove_absent; [done|done|].
  intros Hin. apply (Hdisj _ Hin). left.
Qed.

Lemma MoveToFront_perm (e : Element) (es : list Element) :
  NoDup (eid <$> es) → e ∈ es → MoveToFront e es ≡ₚ es.
Proof.
  intros Hnd Hin. unfold MoveToFront, inList.
  rewrite bool_decide_eq_true_2 by (by apply list_elem_of_fmap_2).
  by apply Remove_cons_perm.
Qed.

Lemma newElementId_fresh (c : lru) : newElementId c ∉ eid <$> l c.
Proof.
  intros Hin.
  assert (newElementId c ∈ eid <$> (l c ++ (map_to_list (m c)).*2)) as Hin'.
  { rewrite fmap_app, elem_of_app. by left. }
  apply max_list_elem_of_le in Hin'. unfold newElementId in Hin'. lia.
Qed.

(** ** [Fields] keeps the invariant *)

Lemma cache_ok_moved (c : lru) (rv : rtype) (e : Element) :
  cache_ok c → m c !! rv = Some e →
  cache_ok {| cap := cap c; m := m c; l := MoveToFront e (l c) |}.
Proof.
  intros (Hm & Hl & Hnd & Hsz & Hcap) Hrv. simpl.
  assert (e ∈ l c) as Hin by (by destruct (Hm rv e Hrv)).
  pose proof (MoveToFront_perm e (l c) Hnd Hin) as Hp.
  split_cache_ok.
  - intros k e' He'. simpl. destruct (Hm k e' He') as [Hin' Hk].
    split; [|done]. by rewrite Hp.
  - by rewrite Hp.
  - by rewrite Hp.
  - by rewrite Hp.
  - by rewrite Hp.
Qed.

Lemma cache_ok_evicted (c : lru) (es0 : list Element) (old : Element) :
  cache_ok c → l c = es0 ++ [old] →
  cache_ok {| cap := cap c; m := delete (t (Value old)) (m c); l := es0 |}.
Proof.
  intros (Hm & Hl & Hnd & Hsz & Hcap) Hes. rewrite Hes in *.
  assert (m c !! t (Value old) = Some old) as Hold.
  { rewrite list.Forall_forall in Hl. apply Hl, elem_of_app. right. left. }
  assert (∀ e, e ∈ es0 → eid e ≠ eid old) as Hids.
  { rewrite fmap_app in Hnd. apply list.NoDup_app in Hnd as (_ & Hdisj & _).
    intros e He Heq. apply (Hdisj (eid e)); [by apply list_elem_of_fmap_2|].
    rewrite Heq. left. }
  assert (∀ e, e ∈ es0 → t (Value e) ≠ t (Value old)) as Hkeys.
  { intros e He Heq. apply (Hids e He).
    rewrite list.Forall_forall in Hl.
    assert (m c !! t (Value e) = Some e) as Hlook by (apply Hl, elem_of_app; by left).
    rewrite Heq, Hold in Hlook. by simplify_eq. }
  split_cache_ok.
  - intros k e. rewrite lookup_delete_Some. intros [Hne Hke].
    destruct (Hm k e Hke) as [Hin Hk]. split; [|done].
    apply elem_of_app in Hin as [Hin|Hin]; [done|].
    apply list_elem_of_singleton in Hin. subst. done.
  - rewrite list.Forall_forall in Hl |- *. intros e He.
    rewrite lookup_delete_ne by (apply not_eq_sym; by apply Hkeys).
    apply Hl, elem_of_app. by left.
  - rewrite fmap_app in Hnd. by apply list.NoDup_app in Hnd as (? & _ & _).
  - rewrite map_size_delete_Some by done. rewrite Hsz, length_app. simpl. lia.
  - rewrite length_app in Hcap. simpl in Hcap. lia.
Qed.

Lemma cache_ok_pushed (c : lru) (rv : rtype) (columns : list string) :
  cache_ok c → m c !! rv = None → Z.of_nat (length (l c)) < cap c →
  cache_ok {| cap := cap c;
              m := <[rv := {| eid := newElementId c; Value := {| t := rv; v := columns |} |}]> (m c);
              l := {| eid := newElementId c; Value := {| t := rv; v := columns |} |} :: l c |}.
Proof.
  intros (Hm & Hl & Hnd & Hsz & Hcap) Hrv Hlt.
  split_cache_ok.
  - apply map_Forall_insert; [done|]. split; [split; [left|done]|].
    intros k e Hke. destruct (Hm k e Hke). split; [by right|done].
  - constructor; simpl; [by rewrite lookup_insert_eq|].
    rewrite list.Forall_forall in Hl |- *. intros e He.
    rewrite lookup_insert_ne; [by apply Hl|].
    intros Heq. specialize (Hl e He). rewrite <-Heq in Hl. congruence.
  - apply list.NoDup_cons. split; [apply newElementId_fresh|done].
  - rewrite map_size_insert_None by done. by rewrite Hsz.
  - lia.
Qed.

(** The eviction step of a call that misses. *)
Lemma evict_at_capacity (c : lru) (es0 : list Element) (old : Element) :
  NoDup (eid <$> l c) → l c = es0 ++ [old] → Z.of_nat (length (l c)) = cap c →
  evict c = Some {| cap := cap c; m := delete (t (Value old)) (m c); l := es0 |}.
Proof.
  intros Hnd Hes Hlen. unfold evict, Back.
  rewrite Hlen, Z.eqb_refl, Hes, last_snoc.
  rewrite Remove_back; [done|]. by rewrite <-Hes.
Qed.

Lemma evict_below_capacity (c : lru) :
  Z.of_nat (length (l c)) ≠ cap c → evict c = Some c.
Proof. intros Hne. unfold evict. by apply Z.eqb_neq in Hne as ->. Qed.

Lemma evict_ok (c : lru) :
  cache_ok c → 0 < cap c →
  ∃ c1, evict c = Some c1 ∧ cache_ok c1 ∧ cap c1 = cap c ∧
        Z.of_nat (length (l c1)) < cap c ∧
        (∀ k, m c !! k = None → m c1 !! k = None) ∧
        (∀ e, e ∈ l c1 → e ∈ l c).
Proof.
  intros Hok Hpos. pose proof Hok as (Hm & Hl & Hnd & Hsz & Hcap).
  destruct (decide (Z.of_nat (length (l c)) = cap c)) as [Hfull|Hroom].
  - destruct (l c) as [|x es] eqn:Hes using rev_ind; [simpl in Hfull; lia|].
    clear IHes. exists {| cap := cap c; m := delete (t (Value x)) (m c); l := es |}.
    split; [apply evict_at_capacity; by rewrite ?Hes|].
    split; [by apply cache_ok_evicted|]. simpl.
    rewrite <-Hfull, length_app. simpl. split; [done|]. split; [lia|]. split.
    + intros k Hk. rewrite lookup_delete_None. by right.
    + intros e He. apply elem_of_app. by left.
  - exists c. split; [by apply evict_below_capacity|].
    split; [done|]. split; [done|]. split; [lia|]. by split.
Qed.

Lemma Fields_nil (c : lru) : Fields c None = Some (c, []).
Proof. reflexivity. Qed.

Lemma Fields_hit (c : lru) (gv : gvalue) (e : Element) :
  m c !! argType gv = Some e →
  Fields c (Some gv)
  = Some ({| cap := cap c; m := m c; l := MoveToFront e (l c) |}, v (Value e)).
Proof. intros He. unfold Fields. by rewrite He. Qed.

Lemma Fields_miss (c c1 : lru) (gv : gvalue) :
  m c !! argType gv = None → evict c = Some c1 →
  Fields c (Some gv)
  = Some ({| cap := cap c1;
             m := <[argType gv :=
                      {| eid := newElementId c1;
                         Value := {| t := argType gv; v := fields (argType gv) |} |}]> (m c1);
             l := {| eid := newElementId c1;
                     Value := {| t := argType gv; v := fields (argType gv) |} |} :: l c1 |},
           fields (argType gv)).
Proof. intros Hmiss Hev. unfold Fields. by rewrite Hmiss, Hev. Qed.

Lemma Fields_ok (c : lru) (arg : iface) :
  cache_ok c → 0 < cap c →
  ∃ c' out, Fields c arg = Some (c', out) ∧ cache_ok c' ∧ cap c' = cap c.
Proof.
  intros Hok Hpos. destruct arg as [gv|]; [|by exists c, []].
  destruct (m c !! argType gv) as [e|] eqn:Hlook.
  - eexists _, _. split; [by apply Fields_hit|]. split; [|done].
    by apply (cache_ok_moved c (argType gv)).
  - destruct (evict_ok c Hok Hpos) as (c1 & Hev & Hok1 & Hcap1 & Hlt & Hnone & _).
    eexists _, _. split; [by apply Fields_miss|]. split; [|done].
    apply cache_ok_pushed; [done|by apply Hnone|lia].
Qed.

Lemma Fields_sound (c c' : lru) (gv : gvalue) (out : list string) :
  cache_ok c → cache_sound c → Fields c (Some gv) = Some (c', out) →
  cache_sound c' ∧ out = fields (argType gv).
Proof.
  intros Hok Hsound. pose proof Hok as (Hm & Hl & Hnd & Hsz & Hcap).
  unfold cache_sound in *.
  destruct (m c !! argType gv) as [e|] eqn:Hlook.
  - rewrite (Fields_hit c gv e Hlook). intros [= <- <-]. simpl.
    destruct (Hm _ _ Hlook) as [Hin Hkey].
    rewrite (MoveToFront_perm e (l c) Hnd Hin). split; [done|].
    rewrite list.Forall_forall in Hsound. rewrite (Hsound e Hin). by rewrite Hkey.
  - unfold Fields. rewrite Hlook. destruct (evict c) as [c1|] eqn:Hev; [|done].
    simpl. intros [= <- <-]. simpl. split; [|done].
    constructor; [done|].
    rewrite list.Forall_forall in Hsound |- *. intros e He. apply Hsound.
    unfold evict in Hev. destruct (Z.of_nat (length (l c)) =? cap c).
    + destruct (Back (l c)) as [old|]; [|done]. injection Hev as <-. simpl in He.
      by apply Remove_elem_of in He as [? _].
    + by injection Hev as <-.
Qed.

(** Every sequence of calls on [wildcardsCache] runs to its end, and the
    cache it leaves satisfies the invariant. *)
Lemma runFields_ok (c : lru) (args : list iface) :
  cache_ok c → cache_sound c → 0 < cap c →
  ∃ c', runFields c args = Some c' ∧ cache_ok c' ∧ cache_sound c' ∧ cap c' = cap c.
Proof.
  revert c. induction args as [|arg args IH]; intros c Hok Hsound Hpos.
  - by exists c.
  - destruct (Fields_ok c arg Hok Hpos) as (c1 & out & Hrun & Hok1 & Hcap1).
    assert (cache_sound c1) as Hsound1.
    { destruct arg as [gv|]; [by destruct (Fields_sound c c1 gv out Hok Hsound Hrun)|].
      rewrite Fields_nil in Hrun. by simplify_eq. }
    destruct (IH c1 Hok1 Hsound1) as (c' & Hrun' & Hok' & Hsound' & Hcap'); [lia|].
    exists c'. simpl. rewrite Hrun.
    split; [done|]. split; [done|]. split; [done|]. congruence.
Qed.

Lemma wildcardsCache_ok : cache_ok wildcardsCache ∧ cache_sound wildcardsCache.
Proof.
  split; [|constructor].
  unfold wildcardsCache. split_cache_ok.
  - apply map_Forall_empty.
  - constructor.
  - constructor.
  - apply map_size_empty.
  - lia.
Qed.

Lemma runFields_wildcardsCache (args : list iface) :
  ∃ c, runFields wildcardsCache args = Some c ∧
       cache_ok c ∧ cache_sound c ∧ cap c = 1000.
Proof.
  destruct wildcardsCache_ok as [Hok Hsound].
  destruct (runFields_ok wildcardsCache args Hok Hsound) as (c & ? & ? & ? & ?);
    [done|].
  by exists c.
Qed.

(** ** The cache, claim by claim *)

(** C4: after every sequence of completed [Fields] calls on
    [wildcardsCache], the map and the list agree (every key of the map
    leads to an element of the list that stores this key, and every
    element of the list is the one the map has under the type it stores),
    and neither holds more than the 1000 entries of the capacity. *)
Theorem cache_consistent_within_capacity (args : list iface) :
  ∃ c, runFields wildcardsCache args = Some c ∧
       (∀ k e, m c !! k = Some e → e ∈ l c ∧ t (Value e) = k) ∧
       (∀ e, e ∈ l c → m c !! t (Value e) = Some e) ∧
       (length (l c) ≤ 1000)%nat ∧ (size (m c) ≤ 1000)%nat ∧ cap c = 1000.
Proof.
  destruct (runFields_wildcardsCache args)
    as (c & Hrun & (Hm & Hl & Hnd & Hsz & Hcap) & _ & Hc).
  exists c. split; [exact Hrun|].
  split; [exact Hm|].
  split; [by apply list.Forall_forall|].
  rewrite Hc in Hcap. rewrite Hsz. split; [lia|]. split; [lia|done].
Qed.

(** C2: in a cache that satisfies the invariant,
    - a call for a type that is not cached, made when the list is as long
      as the capacity, unlinks the back of the list, deletes its type from
      the map, and puts a new element with the freshly resolved columns in
      front and under the new type in the map;
    - a call for a cached type moves its element to the front, leaves the
      map alone and returns the slice stored in the element;
    - so an entry at the back that is asked for again is not the one the
      next insertion evicts: the entry before it is. *)
Theorem Fields_lru (c : lru) (gv : gvalue) :
  cache_ok c →
  (∀ es0 old,
     l c = es0 ++ [old] → Z.of_nat (length (l c)) = cap c →
     m c !! argType gv = None →
     ∃ e, Fields c (Some gv)
          = Some ({| cap := cap c;
                     m := <[argType gv := e]> (delete (t (Value old)) (m c));
                     l := e :: es0 |},
                  fields (argType gv)) ∧
          Value e = {| t := argType gv; v := fields (argType gv) |} ∧
          (<[argType gv := e]> (delete (t (Value old)) (m c))) !! t (Value old) = None ∧
          old ∉ e :: es0) ∧
  (∀ e,
     m c !! argType gv = Some e →
     ∃ es1 es2, l c = es1 ++ e :: es2 ∧
                Fields c (Some gv)
                = Some ({| cap := cap c; m := m c; l := e :: es1 ++ es2 |},
                        v (Value e))) ∧
  (∀ es0 next old gv',
     l c = es0 ++ [next; old] → Z.of_nat (length (l c)) = cap c →
     m c !! argType gv = Some old → m c !! argType gv' = None →
     ∃ c1 out1 c2 out2,
       Fields c (Some gv) = Some (c1, out1) ∧
       Fields c1 (Some gv') = Some (c2, out2) ∧
       m c2 !! argType gv = Some old ∧ old ∈ l c2 ∧
       m c2 !! t (Value next) = None ∧ next ∉ l c2).
Proof.
  intros Hok. pose proof Hok as (Hm & Hl & Hnd & Hsz & Hcap).
  assert (∀ e, m c !! argType gv = Some e →
               ∃ es1 es2, l c = es1 ++ e :: es2 ∧
                 Fields c (Some gv)
                 = Some ({| cap := cap c; m := m c; l := e :: es1 ++ es2 |},
                         v (Value e))) as Hhit.
  { intros e He. destruct (Hm _ _ He) as [Hin _].
    apply list_elem_of_split in Hin as (es1 & es2 & Hes).
    exists es1, es2. split; [done|].
    rewrite (Fields_hit c gv e He), Hes. rewrite MoveToFront_split; [done|].
    by rewrite <-Hes. }
  assert (∀ (c0 : lru) (g : gvalue) es0 old,
            cache_ok c0 →
            l c0 = es0 ++ [old] → Z.of_nat (length (l c0)) = cap c0 →
            m c0 !! argType g = None →
            ∃ e, Fields c0 (Some g)
                 = Some ({| cap := cap c0;
                            m := <[argType g := e]> (delete (t (Value old)) (m c0));
                            l := e :: es0 |},
                         fields (argType g)) ∧
                 Value e = {| t := argType g; v := fields (argType g) |} ∧
                 (<[argType g := e]> (delete (t (Value old)) (m c0))) !! t (Value old) = None ∧
                 old ∉ e :: es0) as Hmiss.
  { clear. intros c0 g es0 old (Hm & Hl & Hnd & Hsz & Hcap) Hes Hfull Hnone.
    pose proof (evict_at_capacity c0 es0 old Hnd Hes Hfull) as Hev.
    eexists. split; [rewrite (Fields_miss c0 _ g Hnone Hev); simpl; reflexivity|].
    split; [done|].
    assert (m c0 !! t (Value old) = Some old) as Hold.
    { rewrite list.Forall_forall in Hl. apply Hl. rewrite Hes, elem_of_app. right. left. }
    split.
    - rewrite lookup_insert_ne by congruence. apply lookup_delete_eq.
    - rewrite Hes, fmap_app in Hnd. apply list.NoDup_app in Hnd as (_ & Hdisj & _).
      rewrite not_elem_of_cons. split.
      + intros Heq. rewrite Heq in Hold. simpl in Hold. congruence.
      + intros Hin. apply (Hdisj (eid old)); [by apply list_elem_of_fmap_2|left]. }
  split; [intros es0 old; by apply Hmiss|].
  split; [exact Hhit|].
  intros es0 next old gv' Hes Hfull Hold Hnew.
  destruct (Hhit old Hold) as (es1 & es2 & Hes' & Hrun1).
  assert (es1 = es0 ++ [next] ∧ es2 = []) as [-> ->].
  { rewrite Hes in Hes'. destruct es2 as [|y es2 _] using rev_ind.
    - replace (es0 ++ [next; old]) with ((es0 ++ [next]) ++ [old]) in Hes'
        by (by rewrite <-app_assoc).
      by apply app_inj_tail in Hes' as [-> _].
    - exfalso. rewrite app_comm_cons, app_assoc in Hes'.
      replace (es0 ++ [next; old]) with ((es0 ++ [next]) ++ [old]) in Hes'
        by (by rewrite <-app_assoc).
      apply app_inj_tail in Hes' as [Hes' <-].
      assert (l c = (es1 ++ old :: es2) ++ [old]) as Hes''.
      { rewrite Hes, <-Hes', <-app_assoc. done. }
      rewrite Hes'', !fmap_app in Hnd.
      apply list.NoDup_app in Hnd as (_ & Hdisj & _).
      apply (Hdisj (eid old)); [|left].
      apply elem_of_app. right. left. }
  rewrite app_nil_r in Hrun1.
  set (c1 := {| cap := cap c; m := m c; l := old :: es0 ++ [next] |}) in *.
  assert (cache_ok c1) as Hok1.
  { replace c1 with {| cap := cap c; m := m c; l := MoveToFront old (l c) |};
      [by apply (cache_ok_moved c (argType gv))|].
    unfold c1. f_equal. rewrite Hes.
    replace (es0 ++ [next; old]) with ((es0 ++ [next]) ++ old :: []) by (by rewrite <-app_assoc).
    rewrite MoveToFront_split; [by rewrite app_nil_r|].
    rewrite <-app_assoc. simpl. by rewrite <-Hes. }
  destruct (Hmiss c1 gv' (old :: es0) next Hok1) as (e & Hrun2 & He & Hgone & Hnotin);
    [done| |done|].
  { simpl. rewrite <-Hfull, Hes, !length_app. simpl. lia. }
  simpl in Hrun2, Hgone.
  eexists _, _, _, _. split; [exact Hrun1|]. split; [exact Hrun2|]. simpl.
  destruct (Hm _ _ Hold) as [_ Hkey].
  assert (m c !! t (Value next) = Some next) as Hnext.
  { rewrite list.Forall_forall in Hl. apply Hl. rewrite Hes, elem_of_app. right. left. }
  split; [|split; [right; left|split; [exact Hgone|exact Hnotin]]].
  rewrite lookup_insert_ne by congruence.
  rewrite lookup_delete_ne; [done|].
  intros Heq. rewrite Heq, Hold in Hnext. simplify_eq.
  rewrite Hes, fmap_app in Hnd. apply list.NoDup_app in Hnd as (_ & _ & Hnd).
  simpl in Hnd. apply list.NoDup_cons in Hnd as [Hnd _]. apply Hnd. left.
Qed.

(** C9: a nil pointer whose static type is pointer-to-struct resolves like
    a value of the struct type: after any history of calls, [Fields]
    returns the resolved columns of the pointed-to struct, and leaves the
    cache, as it does for a struct value. *)
Theorem Fields_typed_nil_pointer (args : list iface) (fs : list sfield) :
  ∃ c c', runFields wildcardsCache args = Some c ∧
          Fields c (Some {| dynType := TPtr (TStruct fs); isNilPtr := true |})
          = Some (c', fields (TStruct fs)) ∧
          Fields c (Some {| dynType := TStruct fs; isNilPtr := false |})
          = Some (c', fields (TStruct fs)).
Proof.
  destruct (runFields_wildcardsCache args) as (c & Hrun & Hok & Hsound & Hc).
  destruct (Fields_ok c (Some {| dynType := TPtr (TStruct fs); isNilPtr := true |}) Hok)
    as (c' & out & Hcall & _ & _); [lia|].
  destruct (Fields_sound c c' _ out Hok Hsound Hcall) as [_ ->].
  exists c, c'. split; [exact Hrun|]. split; exact Hcall.
Qed.

(** C5: an unsupported input (the nil interface, a value that is neither
    a composite nor a pointer to a composite) is no error: after any
    history of calls, [Fields] returns the empty slice and [Wildcard] the
    empty string, and neither panics. *)
Theorem Fields_unsupported_input (args : list iface) (arg : iface) :
  supported arg = false →
  ∃ c c', runFields wildcardsCache args = Some c ∧
          Fields c arg = Some (c', []) ∧
          Wildcard c arg = Some (c', EmptyString).
Proof.
  intros Hun.
  destruct (runFields_wildcardsCache args) as (c & Hrun & Hok & Hsound & Hc).
  destruct (Fields_ok c arg Hok) as (c' & out & Hcall & _ & _); [lia|].
  assert (out = []) as ->.
  { destruct arg as [gv|]; [|rewrite Fields_nil in Hcall; by simplify_eq].
    destruct (Fields_sound c c' gv out Hok Hsound Hcall) as [_ ->].
    apply fields_not_struct. unfold argType. simpl in Hun.
    destruct (dynType gv) as [k|[k|e|fs]|fs]; done. }
  exists c, c'. split; [exact Hrun|]. split; [exact Hcall|].
  unfold Wildcard. by rewrite Hcall.
Qed.

(** C7: resolution is deterministic.  Take any type, any order in which
    the [range] loop may visit the map of its columns, and any history of
    calls before: the call returns the list computed from that order,
    whether it finds the type cached or not, and the call after it, which
    finds the type cached, returns the same list. *)
Theorem resolution_deterministic (args : list iface) (gv : gvalue) (cs : list column) :
  mapRange (GetColumnToFieldIndexMap (argType gv)) cs →
  ∃ c c1 c2, runFields wildcardsCache args = Some c ∧
             Fields c (Some gv) = Some (c1, fieldsFrom cs) ∧
             is_Some (m c1 !! argType gv) ∧
             Fields c1 (Some gv) = Some (c2, fieldsFrom cs).
Proof.
  intros Hcs. rewrite (fields_order_irrelevant _ cs Hcs).
  destruct (runFields_wildcardsCache args) as (c & Hrun & Hok & Hsound & Hc).
  destruct (Fields_ok c (Some gv) Hok) as (c1 & out1 & Hcall1 & Hok1 & Hc1); [lia|].
  destruct (Fields_sound c c1 gv out1 Hok Hsound Hcall1) as [Hsound1 ->].
  destruct (Fields_ok c1 (Some gv) Hok1) as (c2 & out2 & Hcall2 & _ & _); [lia|].
  destruct (Fields_sound c1 c2 gv out2 Hok1 Hsound1 Hcall2) as [_ ->].
  exists c, c1, c2. split; [exact Hrun|]. split; [exact Hcall1|]. split; [|exact Hcall2].
  unfold Fields in Hcall1. destruct (m c !! argType gv) as [e|] eqn:Hlook.
  - injection Hcall1 as <- _. simpl. by rewrite Hlook.
  - destruct (evict c) as [c0|]; [|done]. simpl in Hcall1.
    injection Hcall1 as <-. simpl. by rewrite lookup_insert_eq.
Qed.

(** ** The formatter *)

Lemma string_app_assoc (s1 s2 s3 : string) : (s1 +:+ s2) +:+ s3 = s1 +:+ (s2 +:+ s3).
Proof.
  induction s1 as [|a s1 IH]; [done|].
  change (String a ((s1 +:+ s2) +:+ s3) = String a (s1 +:+ (s2 +:+ s3))).
  by rewrite IH.
Qed.

Lemma string_app_nil_r (s : string) : s +:+ EmptyString = s.
Proof.
  induction s as [|a s IH]; [done|].
  change (String a (s +:+ EmptyString) = String a s). by rewrite IH.
Qed.

Lemma ContainsRune_hasDot (s : string) : ContainsRune s "."%char = true ↔ hasDot s.
Proof.
  unfold hasDot. induction s as [|a s IH]; simpl.
  - split; [done|]. by intros ?%list.elem_of_nil.
  - rewrite elem_of_cons. destruct (Ascii.eqb_spec a "."%char) as [->|Hne].
    + split; [by left|done].
    + rewrite IH. split; [by right|]. intros [?|?]; [congruence|done].
Qed.

Lemma writeElem_rendered (b : string) (n : nat) (s : string) :
  writeElem b n s
  = b +:+ (if bool_decide (n ≠ 0%nat) then "," else EmptyString) +:+ rendered s.
Proof.
  unfold writeElem, rendered, quoted.
  destruct (ContainsRune s "."%char) eqn:Hdot.
  - apply ContainsRune_hasDot in Hdot. rewrite decide_True by done.
    case_bool_decide; by rewrite ?string_app_assoc.
  - rewrite decide_False
      by (intros Hd%ContainsRune_hasDot; congruence).
    case_bool_decide; by rewrite ?string_app_assoc.
Qed.

(** After the first round every round writes a comma and the column. *)
Lemma writeElems_later (b : string) (n : nat) (elems : list string) :
  writeElems b (S n) elems
  = b +:+ fold_right (λ s acc, "," +:+ rendered s +:+ acc) EmptyString elems.
Proof.
  revert b n. induction elems as [|s elems IH]; intros b n; simpl.
  - by rewrite string_app_nil_r.
  - rewrite IH, writeElem_rendered. rewrite bool_decide_eq_true_2 by done.
    by rewrite !string_app_assoc.
Qed.

Lemma concat_cons_rendered (x : string) (xs : list string) :
  String.concat "," (x :: xs)
  = x +:+ fold_right (λ s acc, "," +:+ s +:+ acc) EmptyString xs.
Proof.
  revert x. induction xs as [|y xs IH]; intros x.
  - simpl. by rewrite string_app_nil_r.
  - change (String.concat "," (x :: y :: xs)) with (x +:+ "," +:+ String.concat "," (y :: xs)).
    rewrite IH. simpl. done.
Qed.

Lemma writeElems_concat (elems : list string) :
  writeElems EmptyString 0 elems = String.concat "," (rendered <$> elems).
Proof.
  destruct elems as [|s elems]; [done|].
  simpl writeElems. rewrite writeElems_later, writeElem_rendered.
  rewrite bool_decide_eq_false_2 by (intros Hne; by apply Hne).
  rewrite fmap_cons, concat_cons_rendered. simpl. f_equal.
  induction elems as [|y elems IH]; simpl; [done|]. by rewrite IH.
Qed.

Lemma growSize_acc (elems : list string) (n : Z) :
  n ≤ fold_left (λ n s, n + len s) elems n.
Proof.
  revert n. induction elems as [|s elems IH]; intros n; simpl; [lia|].
  specialize (IH (n + len s)). unfold len in *. lia.
Qed.

(** The size handed to [b.Grow] is never negative for a slice that is not
    empty: [b.Grow] does not panic. *)
Lemma growSize_nonneg (elems : list string) : elems ≠ [] → 0 ≤ growSize elems.
Proof.
  intros Hne. unfold growSize.
  pose proof (growSize_acc elems (len "," * (Z.of_nat (length elems) - 1))) as Hacc.
  destruct elems as [|s elems]; [done|].
  change (len ",") with 1 in *. simpl length in *. lia.
Qed.

Lemma joinColumns_total (elems : list string) :
  joinColumns elems
  = Some (if bool_decide (length elems = 0%nat) then EmptyString
          else String.concat "," (rendered <$> elems)).
Proof.
  unfold joinColumns. case_bool_decide as Hlen; [done|].
  assert (elems ≠ []) as Hne by (by intros ->).
  pose proof (growSize_nonneg elems Hne) as Hpos.
  destruct (Z.ltb_spec (growSize elems) 0); [lia|].
  by rewrite writeElems_concat.
Qed.

(** C6: for a column list that is not empty, [Wildcard] returns the
    columns in the order [Fields] gave them, joined by commas, each in
    double quotes, each column that contains a dot followed by [ as ] and
    its quoted name once more, and each column without a dot by nothing. *)
Theorem Wildcard_joins_columns (c c' : lru) (arg : iface) (elems : list string) :
  Fields c arg = Some (c', elems) → elems ≠ [] →
  Wildcard c arg = Some (c', String.concat "," (rendered <$> elems)) ∧
  (∀ s, rendered s = if decide ("."%char ∈ list_ascii_of_string s)
                     then dquote +:+ s +:+ dquote +:+ " as " +:+ dquote +:+ s +:+ dquote
                     else dquote +:+ s +:+ dquote).
Proof.
  intros Hcall Hne. split.
  - unfold Wildcard. rewrite Hcall, joinColumns_total.
    rewrite bool_decide_eq_false_2; [done|]. by destruct elems.
  - intros s. unfold rendered, quoted, hasDot.
    destruct (decide ("."%char ∈ list_ascii_of_string s)); [|done].
    by rewrite !string_app_assoc.
Qed.

(** C8: the core never raises.  After any history of calls and for every
    input, [Wildcard] returns a string; the formatter returns one for every
    column list, the one with a zero-length name included. *)
Theorem Wildcard_never_panics (args : list iface) (arg : iface) :
  (∃ c c' s, runFields wildcardsCache args = Some c ∧
             Wildcard c arg = Some (c', s)) ∧
  (∀ elems, is_Some (joinColumns elems)) ∧
  joinColumns [EmptyString] = Some (dquote +:+ dquote).
Proof.
  split; [|split].
  - destruct (runFields_wildcardsCache args) as (c & Hrun & Hok & Hsound & Hc).
    destruct (Fields_ok c arg Hok) as (c' & out & Hcall & _ & _); [lia|].
    exists c, c'. eexists. split; [exact Hrun|].
    unfold Wildcard. rewrite Hcall, joinColumns_total. reflexivity.
  - intros elems. rewrite joinColumns_total. by eexists.
  - reflexivity.
Qed.

(** ** Interleaved calls are serial *)

Lemma Fields_finish (c : lru) (gv : gvalue) :
  Fields c (Some gv) = finish c (AtLookup (argType gv)).
Proof.
  unfold Fields, finish, evict. destruct (m c !! argType gv) as [e|]; [done|].
  destruct (Z.of_nat (length (l c)) =? cap c); [|done].
  by destruct (Back (l c)).
Qed.

Lemma finish_step (locked locked' : bool) (c c' : lru) (arg : iface) (p p' : pc) :
  inCS p = true → (∀ out, p ≠ AtUnlock out) → is_Some (finish c p) →
  stepThread locked c arg p = Some (locked', c', p') →
  locked' = locked ∧ inCS p' = true ∧ finish c' p' = finish c p.
Proof.
  intros Hcs Hnot Hfin Hstep.
  destruct p as [|rv|rv|e|rv|rv|rv [old|]|rv old|rv|rv cols|rv e cols|out| |];
    simpl in Hcs, Hstep; try done.
  - unfold finish. destruct (m c !! rv) as [e|]; by simplify_eq.
  - by simplify_eq.
  - unfold finish. destruct (Z.of_nat (length (l c)) =? cap c); by simplify_eq.
  - by simplify_eq.
  - by simplify_eq.
  - simpl in Hfin. by destruct Hfin.
  - by simplify_eq.
  - by simplify_eq.
  - by simplify_eq.
  - by simplify_eq.
  - by destruct (Hnot out).
Qed.

Lemma thread_inv_inside (c0 c : lru) (arg : iface) (p : pc) :
  inCS p = true →
  thread_inv c0 c {| targ := arg; tpc := p |}
  ↔ ∃ gv, arg = Some gv ∧ finish c p = Fields c0 (Some gv).
Proof. by destruct p. Qed.

Lemma thread_inv_outside (c0 c c0' c' : lru) (th : thread) :
  inCS (tpc th) = false → thread_inv c0 c th → thread_inv c0' c' th.
Proof. destruct th as [arg p]. by destruct p. Qed.

Lemma csCount_cons (th : thread) (ths : list thread) :
  csCount (th :: ths) = (csWeight th + csCount ths)%nat.
Proof.
  unfold csCount, csWeight. destruct (inCS (tpc th)) eqn:Hcs.
  - by rewrite filter_cons_True.
  - by rewrite filter_cons_False by congruence.
Qed.

Lemma csCount_insert (ths : list thread) (i : nat) (th th' : thread) :
  ths !! i = Some th →
  (csCount (<[i := th']> ths) + csWeight th = csCount ths + csWeight th')%nat.
Proof.
  revert i. induction ths as [|x ths IH]; intros i Hi; [done|].
  destruct i as [|i]; simpl in *.
  - simplify_eq. rewrite !csCount_cons. lia.
  - rewrite !csCount_cons. specialize (IH i Hi). lia.
Qed.

Lemma csCount_zero (ths : list thread) (j : nat) (th : thread) :
  csCount ths = 0%nat → ths !! j = Some th → inCS (tpc th) = false.
Proof.
  revert j. induction ths as [|x ths IH]; intros j Hz Hj; [done|].
  rewrite csCount_cons in Hz. destruct j as [|j]; simpl in *.
  - simplify_eq. unfold csWeight in Hz. destruct (inCS (tpc th)); [lia|done].
  - apply (IH j); [lia|done].
Qed.

(** With one caller past [Lock], every other caller is before it or has
    returned. *)
Lemma csCount_one_others (ths : list thread) (i j : nat) (th th' : thread) :
  csCount ths = 1%nat → ths !! i = Some th → inCS (tpc th) = true →
  j ≠ i → ths !! j = Some th' → inCS (tpc th') = false.
Proof.
  intros Hone Hi Hcs Hne Hj.
  pose proof (csCount_insert ths i th {| targ := None; tpc := AtEntry |} Hi) as Hins.
  unfold csWeight in Hins at 1 2. rewrite Hcs in Hins. simpl in Hins.
  apply (csCount_zero (<[i := {| targ := None; tpc := AtEntry |}]> ths) j); [lia|].
  by rewrite list_lookup_insert_ne.
Qed.

Lemma runFields_snoc (c c0 c1 : lru) (hist : list iface) (arg : iface) (out : list string) :
  runFields c hist = Some c0 → Fields c0 arg = Some (c1, out) →
  runFields c (hist ++ [arg]) = Some c1.
Proof.
  revert c. induction hist as [|a hist IH]; intros c Hrun Hcall; simpl in *.
  - simplify_eq. by rewrite Hcall.
  - destruct (Fields c a) as [[c' o]|]; [|done]. by apply IH.
Qed.

Lemma serial_init (args : list iface) : serial (initWorld args).
Proof.
  exists [], wildcardsCache. split; [done|]. split; [|split; [done|]].
  - simpl. induction args as [|a args IH]; [done|].
    rewrite fmap_cons, csCount_cons. by rewrite IH.
  - simpl. apply list.Forall_fmap, Forall_true. done.
Qed.

Lemma serial_step (w w' : world) : serial w → step w w' → serial w'.
Proof.
  intros (hist & c0 & Hrun & Hcount & Hfree & Hths) Hstep.
  destruct Hstep as [w i [arg p] locked' c' p' Hi Hstep]. simpl in Hstep.
  destruct (runFields_wildcardsCache hist) as (c0' & Hrun' & Hok0 & Hsound0 & Hcap0).
  rewrite Hrun in Hrun'. injection Hrun' as <-.
  pose proof (Forall_lookup_1 _ _ _ _ Hths Hi) as Hinv.
  pose proof (csCount_insert (threads w) i _ {| targ := arg; tpc := p' |} Hi) as Hins.
  unfold csWeight in Hins. simpl in Hins.
  destruct (inCS p) eqn:Hcs.
  - (* the holder of the mutex moves *)
    assert (mu w = true) as Hmu.
    { destruct (mu w) eqn:Hmu; [done|]. rewrite ?Hmu in Hcount.
      pose proof (csCount_zero _ _ _ Hcount Hi) as Hz. simpl in Hz. congruence. }
    rewrite Hmu in Hcount, Hstep.
    apply thread_inv_inside in Hinv as (gv & -> & Hfin); [|done].
    assert (∀ j th', j ≠ i → threads w !! j = Some th' → inCS (tpc th') = false)
      as Hothers by (intros j th'; by apply (csCount_one_others _ i j _ th' Hcount Hi)).
    destruct (Fields_ok c0 (Some gv) Hok0) as (c1 & out1 & Hcall & _ & _); [lia|].
    assert ((∃ out, p = AtUnlock out) ∨ (∀ out, p ≠ AtUnlock out)) as [[out ->]|Hnot].
    { destruct p; try (right; intros o; discriminate). left. by eexists. }
    + rewrite Hcall in Hfin. simpl in Hstep, Hfin.
      injection Hstep as <- <- <-. injection Hfin as -> ->.
      destruct (Fields_sound c0 c1 gv out1 Hok0 Hsound0 Hcall) as [_ ->].
      exists (hist ++ [Some gv]), c1. simpl in Hins |- *.
      split; [by apply (runFields_snoc _ c0 _ _ _ (fields (argType gv)))|].
      split; [lia|]. split; [done|].
      apply Forall_lookup_2. intros j th' Hj.
      destruct (decide (j = i)) as [->|Hne].
      * rewrite list_lookup_insert_eq in Hj by (by eapply lookup_lt_Some).
        by simplify_eq.
      * rewrite list_lookup_insert_ne in Hj by done.
        eapply thread_inv_outside; [by eapply Hothers|].
        exact (Forall_lookup_1 _ _ _ _ Hths Hj).
    + destruct (finish_step true locked' (cache w) c' (Some gv) p p') as (-> & Hcs' & Hfin');
        [done|done|by rewrite Hfin, Hcall|done|].
      rewrite Hcs' in Hins.
      exists hist, c0. simpl. split; [done|]. split; [lia|]. split; [done|].
      apply Forall_lookup_2. intros j th' Hj.
      destruct (decide (j = i)) as [->|Hne].
      * rewrite list_lookup_insert_eq in Hj by (by eapply lookup_lt_Some).
        simplify_eq. apply thread_inv_inside; [done|].
        exists gv. split; [done|]. by rewrite Hfin'.
      * rewrite list_lookup_insert_ne in Hj by done.
        eapply thread_inv_outside; [by eapply Hothers|].
        exact (Forall_lookup_1 _ _ _ _ Hths Hj).
  - (* a caller before [Lock] moves *)
    destruct p as [|rv| | | | | | | | | | |out|]; simpl in Hcs, Hstep; try done.
    + assert (locked' = mu w ∧ c' = cache w ∧ inCS p' = false ∧
              thread_inv c0 (cache w) {| targ := arg; tpc := p' |})
        as (-> & -> & Hcs' & Hinv').
      { destruct arg as [gv|]; simplify_eq; repeat split; try done. by exists gv. }
      rewrite Hcs' in Hins.
      exists hist, c0. simpl. split; [done|].
      split; [by rewrite <-Hcount; lia|]. split; [done|].
      by apply Forall_insert.
    + destruct (mu w) eqn:Hmu; [done|]. injection Hstep as <- <- <-.
      destruct Hinv as (gv & Harg & ->). simpl in Harg. subst arg.
      rewrite ?Hmu in Hcount. simpl in Hins.
      exists hist, c0. simpl. split; [done|]. split; [lia|]. split; [done|].
      apply Forall_insert; [done|].
      apply thread_inv_inside; [done|]. exists gv. split; [done|].
      rewrite (Hfree eq_refl). symmetry. apply Fields_finish.
Qed.

Lemma serial_reachable (w w' : world) : serial w → rtc step w w' → serial w'.
Proof. intros Hw Hsteps. induction Hsteps; eauto using serial_step. Qed.

Lemma runSchedule_steps (w w' : world) (sched : list nat) :
  runSchedule w sched = Some w' → rtc step w w'.
Proof.
  revert w. induction sched as [|i sched IH]; intros w Hrun; simpl in Hrun.
  - injection Hrun as <-. apply rtc_refl.
  - destruct (threads w !! i) as [th|] eqn:Hi; [|done].
    destruct (stepThread (mu w) (cache w) (targ th) (tpc th)) as [[[b c] p]|] eqn:Hs; [|done].
    eapply rtc_l; [|by apply IH]. by apply (step_thread w i th).
Qed.

(** A step from a position that does not touch the map or the list leaves
    them alone, and does not depend on them. *)
Lemma stepThread_untouched (locked : bool) (c1 c2 : lru) (arg : iface) (p : pc) :
  touches p = false →
  match stepThread locked c1 arg p, stepThread locked c2 arg p with
  | Some (b1, c1', p1), Some (b2, c2', p2) => b1 = b2 ∧ p1 = p2 ∧ c1' = c1 ∧ c2' = c2
  | None, None => True
  | _, _ => False
  end.
Proof.
  intros Hp. destruct p; simpl in *; try done.
  - by destruct arg.
  - by destruct locked.
Qed.

(** C10: callers of [Fields] may interleave between any two statements,
    and still: every caller whose next statement reads or writes the map
    or the list holds the mutex, and it is the only caller between [Lock]
    and [Unlock]; whenever the mutex is free the cache is what a sequence
    of calls, one after the other, leaves behind, so it satisfies the
    invariant; no caller panics, and every caller that has returned got
    what its call returns when it runs alone. *)
Theorem concurrent_Fields_serial (args : list iface) (w : world) :
  rtc step (initWorld args) w →
  (csCount (threads w) ≤ 1)%nat ∧
  Forall (λ th, touches (tpc th) = true → mu w = true ∧ inCS (tpc th) = true) (threads w) ∧
  (mu w = false →
   ∃ hist, runFields wildcardsCache hist = Some (cache w) ∧ cache_ok (cache w)) ∧
  Forall (λ th, tpc th ≠ Panicked ∧
                ∀ out, tpc th = Returned out → out = expected (targ th)) (threads w).
Proof.
  intros Hsteps.
  destruct (serial_reachable _ _ (serial_init args) Hsteps)
    as (hist & c0 & Hrun & Hcount & Hfree & Hths).
  split; [destruct (mu w); lia|]. split; [|split].
  - apply Forall_lookup_2. intros j [arg p] Hj Htouch. simpl in *.
    assert (inCS p = true) as Hcs by (by destruct p).
    split; [|done]. destruct (mu w) eqn:Hmu; [done|]. rewrite ?Hmu in Hcount.
    pose proof (csCount_zero _ _ _ Hcount Hj) as Hz. simpl in Hz. congruence.
  - intros Hmu. exists hist. rewrite (Hfree Hmu). split; [done|].
    destruct (runFields_wildcardsCache hist) as (c0' & Hrun' & Hok0 & _).
    rewrite Hrun in Hrun'. by injection Hrun' as <-.
  - eapply list.Forall_impl; [exact Hths|]. intros [arg p] Hinv.
    destruct p; simpl in *; try done. split; [done|]. intros out' [= <-]. done.
Qed.

(** * Properties beyond the claims *)

(** ** The comparator of [fields] *)

(** X1: the comparator that [fields] hands to [sort.SliceStable] is a
    strict total order on index paths: no path is before itself, the
    order is transitive, and of two different paths one is before the
    other.  This is what the sort needs of its comparator. *)
Theorem less_strict_total_order :
  (∀ a, less a a = false) ∧
  (∀ a b c, less a b = true → less b c = true → less a c = true) ∧
  (∀ a b, a ≠ b → less a b = true ∨ less b a = true).
Proof.
  split; [exact less_irrefl|]. split; [exact less_trans|].
  intros a b Hne.
  destruct (less a b) eqn:Hab; [by left|].
  destruct (less b a) eqn:Hba; [by right|].
  destruct Hne. by apply less_total.
Qed.

(** X2: the comparator puts [a] before [b] exactly when, after a common
    prefix, [a] goes on with an index and [b] either ends there or goes on
    with a larger index. *)
Theorem less_characterized (a b : list Z) :
  less a b = true ↔
  ∃ (p : list Z) (x : Z) (a' : list Z),
    a = p ++ x :: a' ∧ (b = p ∨ ∃ (y : Z) (b' : list Z), b = p ++ y :: b' ∧ x < y).
Proof.
  split.
  - revert b. induction a as [|x a IH]; intros b Hlt; [done|].
    destruct b as [|y b].
    + exists [], x, a. split; [done|]. by left.
    + rewrite less_cons in Hlt. case_decide as Hxy.
      * subst y. destruct (IH b Hlt) as (p & x' & a' & -> & Hb).
        exists (x :: p), x', a'. split; [done|].
        destruct Hb as [->|(y & b' & -> & Hlt')]; [by left|].
        right. by exists y, b'.
      * apply bool_decide_eq_true in Hlt. exists [], x, a. split; [done|].
        right. by exists y, b.
  - intros (p & x & a' & -> & Hb).
    destruct Hb as [->|(y & b' & -> & Hlt)].
    + rewrite <-(app_nil_r p) at 2. by rewrite less_app.
    + rewrite less_app, less_cons. rewrite decide_False by lia.
      by apply bool_decide_eq_true_2.
Qed.

(** X3: on two paths neither of which is a prefix of the other, as the
    paths of terminal columns are, the comparator agrees with the standard
    lexicographic order. *)
Theorem less_lexLess (a b : list Z) :
  ¬ a `prefix_of` b → ¬ b `prefix_of` a → less a b = lexLess a b.
Proof.
  revert b. induction a as [|x a IH]; intros b Hab Hba.
  - destruct Hab. apply prefix_nil.
  - destruct b as [|y b]; [destruct Hba; apply prefix_nil|].
    rewrite less_cons. simpl.
    case_decide as Hxy.
    + subst y. rewrite Z.ltb_irrefl. apply IH.
      * intros Hp. apply Hab. by apply prefix_cons.
      * intros Hp. apply Hba. by apply prefix_cons.
    + destruct (Z.ltb_spec x y) as [Hlt|Hge].
      * by apply bool_decide_eq_true_2.
      * destruct (Z.ltb_spec y x); [|lia]. apply bool_decide_eq_false_2. lia.
Qed.

(** ** [fields] and the map it ranges over *)

(** X4: [fields] returns the keys of the map, each exactly once, whatever
    order the [range] loop visits the map in: the result is a permutation
    of the keys, has no name twice, and is as long as the map is large. *)
Theorem fieldsFrom_map_keys (mp : gmap string (list Z)) (cs : list column) :
  mapRange mp cs →
  fieldsFrom cs ≡ₚ (map_to_list mp).*1 ∧
  NoDup (fieldsFrom cs) ∧
  length (fieldsFrom cs) = size mp.
Proof.
  intros Hcs. unfold mapRange in Hcs.
  assert (fieldsFrom cs ≡ₚ (map_to_list mp).*1) as Hperm.
  { unfold fieldsFrom. rewrite sortColumns_perm, Hcs.
    rewrite <-list_fmap_compose. done. }
  split; [exact Hperm|]. split.
  - rewrite Hperm. apply NoDup_fst_map_to_list.
  - rewrite Hperm, length_fmap. apply length_map_to_list.
Qed.

(** ** The cache holds the most recently used types *)

Lemma filter_ne_absent (x : rtype) (R : list rtype) :
  x ∉ R → filter (λ y, y ≠ x) R = R.
Proof.
  induction R as [|y R IH]; [done|]. rewrite not_elem_of_cons. intros [Hne Hin].
  rewrite filter_cons_True by done. by rewrite IH.
Qed.

Lemma take_filter_absent (x : rtype) (R : list rtype) (k : nat) :
  x ∉ take k R → take k (filter (λ y, y ≠ x) R) = take k R.
Proof.
  revert k. induction R as [|y R IH]; intros k Hin; [done|].
  destruct k as [|k]; [done|]. simpl in Hin.
  apply not_elem_of_cons in Hin as [Hne Hin].
  rewrite filter_cons_True by done. simpl. by rewrite IH.
Qed.

Lemma take_filter_present (x : rtype) (R : list rtype) (k : nat) :
  NoDup R → x ∈ take (S k) R →
  take k (filter (λ y, y ≠ x) R) = filter (λ y, y ≠ x) (take (S k) R).
Proof.
  revert k. induction R as [|y R IH]; intros k Hnd Hin; [by inv Hin|].
  apply list.NoDup_cons in Hnd as [Hy Hnd]. simpl in Hin |- *.
  destruct (decide (y = x)) as [->|Hne].
  - rewrite !filter_cons_False by (intros Hn; by apply Hn).
    rewrite (filter_ne_absent x R Hy).
    rewrite filter_ne_absent; [done|].
    intros Hin'. apply Hy. by apply (subseteq_take k R).
  - apply elem_of_cons in Hin as [->|Hin]; [done|].
    destruct k as [|k]; [by inv Hin|].
    rewrite !filter_cons_True by done. simpl. f_equal. by apply IH.
Qed.

Lemma cache_ok_same_type (c : lru) (x y : Element) :
  cache_ok c → x ∈ l c → y ∈ l c →
  (eid x = eid y ↔ t (Value x) = t (Value y)).
Proof.
  intros (Hm & Hl & Hnd & _) Hx Hy. rewrite list.Forall_forall in Hl. split.
  - intros Heq. f_equal. f_equal.
    apply list_elem_of_lookup in Hx as [i Hi]. apply list_elem_of_lookup in Hy as [j Hj].
    assert (i = j) as ->.
    { eapply NoDup_lookup; [exact Hnd| |].
      - rewrite list_lookup_fmap, Hi. reflexivity.
      - rewrite list_lookup_fmap, Hj. simpl. by rewrite Heq. }
    congruence.
  - intros Heq. pose proof (Hl x Hx) as Hlx. rewrite Heq, (Hl y Hy) in Hlx. congruence.
Qed.

Lemma Remove_types (e : Element) (es : list Element) :
  Forall (λ y, eid y = eid e ↔ t (Value y) = t (Value e)) es →
  (λ y, t (Value y)) <$> Remove e es
  = filter (λ k, k ≠ t (Value e)) ((λ y, t (Value y)) <$> es).
Proof.
  unfold Remove. induction 1 as [|y es Hy _ IH]; [done|].
  rewrite fmap_cons. destruct (decide (eid y = eid e)) as [Heq|Hne].
  - rewrite filter_cons_False by (intros Hn; by apply Hn).
    rewrite filter_cons_False by (intros Hn; apply Hn; by apply Hy).
    exact IH.
  - rewrite filter_cons_True by done.
    rewrite filter_cons_True by (intros Hk; apply Hne; by apply Hy).
    rewrite fmap_cons. by rewrite IH.
Qed.

Lemma cachedTypes_Remove (c : lru) (e : Element) :
  cache_ok c → e ∈ l c →
  (λ y, t (Value y)) <$> Remove e (l c)
  = filter (λ k, k ≠ t (Value e)) (cachedTypes c).
Proof.
  intros Hok He. apply Remove_types.
  apply list.Forall_forall. intros y Hy. by apply (cache_ok_same_type c).
Qed.

Lemma touch_NoDup (R : list rtype) (x : rtype) : NoDup R → NoDup (touch R x).
Proof.
  intros Hnd. unfold touch. apply list.NoDup_cons. split.
  - rewrite list_elem_of_filter. by intros [Hne _].
  - by apply list.NoDup_filter.
Qed.

Lemma cached_lookup (c : lru) (x : rtype) :
  cache_ok c → (x ∈ cachedTypes c ↔ is_Some (m c !! x)).
Proof.
  intros (Hm & Hl & _). unfold cachedTypes. rewrite list_elem_of_fmap. split.
  - intros (e & -> & He). rewrite list.Forall_forall in Hl. by rewrite (Hl e He).
  - intros [e He]. destruct (Hm x e He) as [Hin Hk]. by exists e.
Qed.

(** One call moves the recency order on by the type asked for. *)
Lemma Fields_recency (c c' : lru) (gv : gvalue) (out : list string) (R : list rtype) :
  cache_ok c → 0 < cap c → NoDup R →
  cachedTypes c = take (Z.to_nat (cap c)) R →
  Fields c (Some gv) = Some (c', out) →
  cachedTypes c' = take (Z.to_nat (cap c)) (touch R (argType gv)).
Proof.
  intros Hok Hpos HR Hkeys Hcall.
  destruct (Z.to_nat (cap c)) as [|k] eqn:Hn; [lia|].
  unfold touch. simpl. set (x := argType gv) in *.
  pose proof Hok as (Hm & Hl & Hnd & Hsz & Hcap).
  assert (take k R = take k (take (S k) R)) as Htake
    by (rewrite take_take; f_equal; lia).
  destruct (m c !! x) as [e|] eqn:Hlook.
  - rewrite (Fields_hit c gv e Hlook) in Hcall. injection Hcall as <- _.
    destruct (Hm x e Hlook) as [He Hk].
    unfold cachedTypes at 1. simpl. unfold MoveToFront, inList.
    rewrite bool_decide_eq_true_2 by (by apply list_elem_of_fmap_2).
    rewrite fmap_cons, Hk. f_equal.
    rewrite (cachedTypes_Remove c e Hok He), Hk, Hkeys.
    symmetry. apply take_filter_present; [done|].
    rewrite <-Hkeys. apply cached_lookup; [done|]. by rewrite Hlook.
  - assert (x ∉ take (S k) R) as Hnew.
    { rewrite <-Hkeys. intros Hin%cached_lookup; [|done].
      rewrite Hlook in Hin. by destruct Hin. }
    assert (x ∉ take k R) as Hnew'.
    { intros Hin. apply Hnew. rewrite Htake in Hin.
      by apply (subseteq_take k (take (S k) R)). }
    rewrite (take_filter_absent x R k Hnew').
    destruct (decide (Z.of_nat (length (l c)) = cap c)) as [Hfull|Hroom].
    + destruct (l c) as [|old es0 _] eqn:Hes using rev_ind; [simpl in Hfull; lia|].
      assert (evict c = Some {| cap := cap c; m := delete (t (Value old)) (m c); l := es0 |})
        as Hev by (apply evict_at_capacity; by rewrite ?Hes).
      rewrite (Fields_miss c _ gv Hlook Hev) in Hcall. injection Hcall as <- _.
      unfold cachedTypes in Hkeys |- *. simpl. f_equal.
      rewrite Hes, fmap_app in Hkeys. simpl in Hkeys.
      rewrite Htake, <-Hkeys.
      rewrite take_app_length'; [done|].
      rewrite length_fmap. rewrite length_app in Hfull. simpl in Hfull. lia.
    + rewrite (Fields_miss c c gv Hlook (evict_below_capacity c Hroom)) in Hcall.
      injection Hcall as <- _.
      unfold cachedTypes in Hkeys |- *. cbn [l]. rewrite fmap_cons. cbn [t Value].
      f_equal. rewrite Hkeys.
      assert (length R < S k)%nat as Hshort.
      { apply (f_equal length) in Hkeys. rewrite length_fmap, length_take in Hkeys. lia. }
      by rewrite !take_ge by lia.
Qed.

Lemma runFields_recency (c c' : lru) (args : list iface) (R : list rtype) :
  cache_ok c → 0 < cap c → NoDup R →
  cachedTypes c = take (Z.to_nat (cap c)) R →
  runFields c args = Some c' →
  cachedTypes c' = take (Z.to_nat (cap c)) (foldl touch R (askedTypes args)).
Proof.
  revert c R. induction args as [|arg args IH]; intros c R Hok Hpos HR Hkeys Hrun.
  - simpl in *. by simplify_eq.
  - simpl in Hrun. destruct (Fields c arg) as [[c1 out]|] eqn:Hcall; [|done].
    destruct (Fields_ok c arg Hok Hpos) as (c1' & out' & Hcall' & Hok1 & Hcap1).
    rewrite Hcall in Hcall'. injection Hcall' as <- <-.
    destruct arg as [gv|].
    + simpl. rewrite <-Hcap1. apply IH; [done|lia|by apply touch_NoDup| |done].
      rewrite Hcap1. by apply (Fields_recency c c1 gv out).
    + rewrite Fields_nil in Hcall. injection Hcall as <- _. simpl. by apply IH.
Qed.

(** X5: the cache is least-recently-used in full.  After every sequence
    of calls on [wildcardsCache], the types in its list are, front to back,
    the 1000 most recently asked-for distinct types, the most recent
    first. *)
Theorem cache_holds_most_recent (args : list iface) :
  ∃ c, runFields wildcardsCache args = Some c ∧
       cachedTypes c = take 1000 (recency (askedTypes args)).
Proof.
  destruct (runFields_wildcardsCache args) as (c & Hrun & _).
  exists c. split; [exact Hrun|].
  destruct wildcardsCache_ok as [Hok _].
  apply (runFields_recency wildcardsCache c args []); try done. constructor.
Qed.

(** ** The size of the expression *)

Lemma len_app (s1 s2 : string) : len (s1 +:+ s2) = len s1 + len s2.
Proof.
  unfold len. induction s1 as [|a s1 IH].
  - change (EmptyString +:+ s2) with s2. simpl. lia.
  - change (String a s1 +:+ s2) with (String a (s1 +:+ s2)). simpl String.length. lia.
Qed.

Lemma len_nonneg (s : string) : 0 ≤ len s.
Proof. unfold len. lia. Qed.

Lemma len_rendered (s : string) : len (rendered s) = len s + 2 + aliasSize s.
Proof.
  unfold rendered, quoted, aliasSize.
  destruct (ContainsRune s "."%char) eqn:Hdot.
  - apply ContainsRune_hasDot in Hdot. rewrite decide_True by done.
    rewrite !len_app. change (len dquote) with 1. change (len " as ") with 4. lia.
  - rewrite decide_False by (intros Hd%ContainsRune_hasDot; congruence).
    rewrite !len_app. change (len dquote) with 1. lia.
Qed.

Lemma growSize_sum (elems : list string) (n : Z) :
  fold_left (λ n s, n + len s) elems n = n + foldr (λ s acc, len s + acc) 0 elems.
Proof.
  revert n. induction elems as [|s elems IH]; intros n; simpl; [lia|].
  rewrite IH. lia.
Qed.

Lemma len_concat_rendered (s : string) (elems : list string) :
  len (String.concat "," (rendered <$> s :: elems))
  = Z.of_nat (length elems)
    + foldr (λ s acc, len s + acc) 0 (s :: elems)
    + foldr (λ s acc, 2 + aliasSize s + acc) 0 (s :: elems).
Proof.
  revert s. induction elems as [|s' elems IH]; intros s.
  - simpl. rewrite len_rendered. lia.
  - change (String.concat "," (rendered <$> s :: s' :: elems))
      with (rendered s +:+ "," +:+ String.concat "," (rendered <$> s' :: elems)).
    rewrite !len_app, IH, len_rendered. change (len ",") with 1.
    simpl foldr. simpl length. lia.
Qed.

Lemma joinColumns_len (elems : list string) :
  elems ≠ [] →
  len (String.concat "," (rendered <$> elems))
  = growSize elems + foldr (λ s acc, 2 + aliasSize s + acc) 0 elems ∧
  growSize elems + 2 * Z.of_nat (length elems)
  ≤ len (String.concat "," (rendered <$> elems)).
Proof.
  intros Hne. destruct elems as [|s elems]; [done|].
  rewrite len_concat_rendered. unfold growSize. rewrite growSize_sum.
  change (len ",") with 1. simpl length.
  split; [lia|].
  assert (∀ xs : list string,
            2 * Z.of_nat (length xs) ≤ foldr (λ s acc, 2 + aliasSize s + acc) 0 xs) as Hall.
  { induction xs as [|x xs IHxs]; simpl; [lia|].
    assert (0 ≤ aliasSize x).
    { unfold aliasSize. destruct (ContainsRune x "."%char); [|lia].
      pose proof (len_nonneg x). change (len dquote) with 1. change (len " as ") with 4. lia. }
    lia. }
  specialize (Hall (s :: elems)). simpl length in Hall. lia.
Qed.

(** X6: [Wildcard] grows its builder to the size of the plain
    comma-join of the names, but the expression it builds is longer: by
    the two quotes of every column and by the alias of every column with a
    dot.  The builder is always at least two bytes per column short. *)
Theorem Wildcard_longer_than_grown (elems : list string) (out : string) :
  joinColumns elems = Some out → elems ≠ [] →
  len out = growSize elems + foldr (λ s acc, 2 + aliasSize s + acc) 0 elems ∧
  growSize elems + 2 * Z.of_nat (length elems) ≤ len out.
Proof.
  intros Hout Hne. rewrite joinColumns_total in Hout.
  rewrite bool_decide_eq_false_2 in Hout by (by destruct elems).
  injection Hout as <-. by apply joinColumns_len.
Qed.

(** X7: [Wildcard] returns the empty string exactly when [Fields] returned
    no column, so an empty result always means an input without
    columns. *)
Theorem Wildcard_empty_iff (c c' : lru) (arg : iface) (elems : list string) :
  Fields c arg = Some (c', elems) →
  (Wildcard c arg = Some (c', EmptyString) ↔ elems = []).
Proof.
  intros Hcall. unfold Wildcard. rewrite Hcall, joinColumns_total. split.
  - destruct elems as [|s elems]; [done|].
    rewrite bool_decide_eq_false_2 by done.
    destruct (joinColumns_len (s :: elems)) as [_ Hge]; [done|].
    remember (String.concat "," (rendered <$> s :: elems)) as out eqn:Ho.
    intros [= ->]. exfalso. change (len EmptyString) with 0 in Hge.
    assert (0 ≤ growSize (s :: elems)) by (by apply growSize_nonneg).
    simpl length in Hge. lia.
  - by intros ->.
Qed.

(** ** Progress of interleaved callers *)

Lemma csCount_pos_exists (ths : list thread) :
  (1 ≤ csCount ths)%nat → ∃ j th, ths !! j = Some th ∧ inCS (tpc th) = true.
Proof.
  induction ths as [|x ths IH]; [unfold csCount; simpl; lia|].
  rewrite csCount_cons. unfold csWeight. destruct (inCS (tpc x)) eqn:Hx.
  - intros _. by exists 0%nat, x.
  - intros Hpos. destruct IH as (j & th & Hj & Hth); [lia|]. by exists (S j), th.
Qed.

(** A caller between [Lock] and [Unlock] can always move, and its move
    either brings it closer to the [Unlock] or takes it out with the mutex
    released. *)
Lemma stepThread_inCS (locked : bool) (c : lru) (arg : iface) (p : pc) :
  inCS p = true →
  ∃ b c' p', stepThread locked c arg p = Some (b, c', p') ∧
             ((inCS p' = true ∧ (csRank p' < csRank p)%nat) ∨
              (inCS p' = false ∧ b = false)).
Proof.
  intros Hcs.
  destruct p as [|rv|rv|e|rv|rv|rv [old|]|rv old|rv|rv cols|rv e cols|out| |];
    simpl in Hcs |- *; try done.
  - destruct (m c !! rv); eexists _, _, _; (split; [done|]); left; simpl;
      (split; [done|lia]).
  - eexists _, _, _. split; [done|]. left. simpl. split; [done|lia].
  - destruct (Z.of_nat (length (l c)) =? cap c); eexists _, _, _;
      (split; [done|]); left; simpl; (split; [done|lia]).
  - eexists _, _, _. split; [done|]. left. simpl. split; [done|lia].
  - eexists _, _, _. split; [done|]. left. simpl. split; [done|lia].
  - eexists _, _, _. split; [done|]. by right.
  - eexists _, _, _. split; [done|]. left. simpl. split; [done|lia].
  - eexists _, _, _. split; [done|]. left. simpl. split; [done|lia].
  - eexists _, _, _. split; [done|]. left. simpl. split; [done|lia].
  - eexists _, _, _. split; [done|]. left. simpl. split; [done|lia].
  - eexists _, _, _. split; [done|]. by right.
Qed.

(** X8: interleaved callers never deadlock.  In every state that callers
    of [Fields] can reach, as long as some caller has not returned, some
    caller can move. *)
Theorem Fields_no_deadlock (args : list iface) (w : world) :
  rtc step (initWorld args) w →
  (∃ i th, threads w !! i = Some th ∧ ∀ out, tpc th ≠ Returned out) →
  ∃ w', step w w'.
Proof.
  intros Hsteps (i & [arg p] & Hi & Hnot). simpl in Hnot.
  destruct (serial_reachable _ _ (serial_init args) Hsteps)
    as (hist & c0 & Hrun & Hcount & Hfree & Hths).
  destruct (mu w) eqn:Hmu.
  - destruct (csCount_pos_exists (threads w)) as (j & [argj pj] & Hj & Hcs); [lia|].
    simpl in Hcs.
    destruct (stepThread_inCS (mu w) (cache w) argj pj Hcs) as (b & c' & p' & Hstep & _).
    eexists. by apply (step_thread w j {| targ := argj; tpc := pj |} b c' p').
  - pose proof (Forall_lookup_1 _ _ _ _ Hths Hi) as Hinv.
    pose proof (csCount_zero _ _ _ Hcount Hi) as Hout. simpl in Hout.
    assert (is_Some (stepThread (mu w) (cache w) arg p)) as [[[b c'] p'] Hstep].
    { destruct p; simpl in Hout, Hinv |- *; try done.
      - destruct arg; by eexists.
      - rewrite Hmu. by eexists.
      - by destruct (Hnot out). }
    eexists. by apply (step_thread w i {| targ := arg; tpc := p |} b c' p').
Qed.

Lemma critical_section_ends_within (n : nat) (w : world) (i : nat) (arg : iface) (p : pc) :
  threads w !! i = Some {| targ := arg; tpc := p |} →
  inCS p = true → (csRank p ≤ n)%nat →
  ∃ k w', (k ≤ n)%nat ∧ runSchedule w (replicate k i) = Some w' ∧ mu w' = false ∧
          ∃ p', threads w' !! i = Some {| targ := arg; tpc := p' |} ∧ inCS p' = false.
Proof.
  revert w p. induction n as [|n IH]; intros w p Hi Hcs Hrank.
  - destruct p; simpl in Hcs, Hrank; try done; lia.
  - destruct (stepThread_inCS (mu w) (cache w) arg p Hcs)
      as (b & c' & p' & Hstep & Hnext).
    set (w1 := {| mu := b; cache := c';
                  threads := <[i := {| targ := arg; tpc := p' |}]> (threads w) |}).
    assert (threads w1 !! i = Some {| targ := arg; tpc := p' |}) as Hi1.
    { simpl. apply list_lookup_insert_eq. by eapply lookup_lt_Some. }
    assert (runSchedule w [i] = Some w1) as Hone.
    { simpl. rewrite Hi. simpl. by rewrite Hstep. }
    destruct Hnext as [[Hcs' Hlt]|[Hcs' ->]].
    + destruct (IH w1 p' Hi1 Hcs') as (k & w' & Hk & Hrun & Hmu & Hend); [lia|].
      exists (S k), w'. split; [lia|]. split; [|done].
      simpl. rewrite Hi. simpl. by rewrite Hstep.
    + exists 1%nat, w1. split; [lia|]. split; [exact Hone|]. split; [done|].
      by exists p'.
Qed.

(** X9: the mutex is always given back.  A caller that stands between
    [Lock] and [Unlock], whatever the cache holds, is out again after at
    most nine steps of its own, with the mutex released; the panic of
    line 115 releases it too. *)
Theorem critical_section_ends (w : world) (i : nat) (th : thread) :
  threads w !! i = Some th → inCS (tpc th) = true →
  ∃ k w', (k ≤ 9)%nat ∧ runSchedule w (replicate k i) = Some w' ∧ mu w' = false ∧
          ∃ th', threads w' !! i = Some th' ∧ targ th' = targ th ∧ inCS (tpc th') = false.
Proof.
  destruct th as [arg p]. simpl. intros Hi Hcs.
  destruct (critical_section_ends_within 9 w i arg p Hi Hcs)
    as (k & w' & Hk & Hrun & Hmu & p' & Hi' & Hcs').
  { destruct p; simpl in Hcs |- *; try done; lia. }
  exists k, w'. split; [done|]. split; [done|]. split; [done|].
  by exists {| targ := arg; tpc := p' |}.
Qed.

(** ** The expression determines the columns *)

Lemma bytes_app (s1 s2 : string) : bytes (s1 +:+ s2) = bytes s1 ++ bytes s2.
Proof.
  unfold bytes. induction s1 as [|a s1 IH]; [done|].
  change (String a s1 +:+ s2) with (String a (s1 +:+ s2)). simpl. by rewrite IH.
Qed.

Lemma bytes_inj (s1 s2 : string) : bytes s1 = bytes s2 → s1 = s2.
Proof.
  unfold bytes. intros Heq.
  rewrite <-(string_of_list_ascii_of_string s1), <-(string_of_list_ascii_of_string s2).
  by rewrite Heq.
Qed.

Lemma first_occurrence {A : Type} (x : A) (l1 l2 r1 r2 : list A) :
  x ∉ l1 → x ∉ l2 → l1 ++ x :: r1 = l2 ++ x :: r2 → l1 = l2 ∧ r1 = r2.
Proof.
  revert l2. induction l1 as [|a l1 IH]; intros l2 H1 H2 Heq.
  - destruct l2 as [|b l2]; simpl in Heq; [by simplify_eq|].
    simplify_eq. destruct H2. left.
  - apply not_elem_of_cons in H1 as [Hne H1].
    destruct l2 as [|b l2]; simpl in Heq; [by simplify_eq|].
    apply not_elem_of_cons in H2 as [_ H2]. simplify_eq.
    destruct (IH l2 H1 H2) as [-> ->]; done.
Qed.

Lemma bytes_rendered (s : string) :
  bytes (rendered s)
  = "034"%char :: bytes s ++ "034"%char ::
      (if decide (hasDot s) then bytes " as " ++ "034"%char :: bytes s ++ ["034"%char]
       else []).
Proof.
  unfold rendered, quoted. destruct (decide (hasDot s)).
  - rewrite !bytes_app. change (bytes dquote) with ["034"%char].
    simpl. by rewrite <-!app_assoc.
  - rewrite !bytes_app. change (bytes dquote) with ["034"%char]. simpl. done.
Qed.

Lemma rendered_inj_step (x y : string) (r1 r2 : list ascii) :
  quoteFree x → quoteFree y →
  bytes (rendered x) ++ r1 = bytes (rendered y) ++ r2 → x = y ∧ r1 = r2.
Proof.
  intros Hx Hy. rewrite !bytes_rendered. simpl. rewrite <-!app_assoc. simpl.
  intros [= Heq].
  destruct (first_occurrence _ _ _ _ _ Hx Hy Heq) as [Hxy Hrest].
  apply bytes_inj in Hxy as ->. split; [done|].
  by apply app_inv_head in Hrest.
Qed.

Lemma bytes_concat_rendered (x : string) (xs : list string) :
  bytes (String.concat "," (rendered <$> x :: xs)) = bytes (rendered x) ++ joinTail xs.
Proof.
  revert x. induction xs as [|y xs IH]; intros x.
  - simpl. by rewrite app_nil_r.
  - change (String.concat "," (rendered <$> x :: y :: xs))
      with (rendered x +:+ "," +:+ String.concat "," (rendered <$> y :: xs)).
    rewrite !bytes_app, IH. done.
Qed.

Lemma joinTail_inj (xs ys : list string) :
  Forall quoteFree xs → Forall quoteFree ys → joinTail xs = joinTail ys → xs = ys.
Proof.
  intros Hxs. revert ys. induction Hxs as [|x xs Hx _ IH]; intros ys Hys Heq.
  - destruct ys; [done|]. simpl in Heq. done.
  - destruct Hys as [|y ys Hy Hys]; simpl in Heq; [done|].
    injection Heq as Heq.
    destruct (rendered_inj_step x y _ _ Hx Hy Heq) as [-> Hrest].
    f_equal. by apply IH.
Qed.

(** X10: [Wildcard] escapes nothing, and needs not for names without a
    double quote: two lists of such names that give the same expression
    are the same list, so the columns can be read back from the
    expression. *)
Theorem joinColumns_injective (xs ys : list string) :
  Forall quoteFree xs → Forall quoteFree ys →
  joinColumns xs = joinColumns ys → xs = ys.
Proof.
  intros Hxs Hys. rewrite !joinColumns_total. intros [= Heq].
  destruct Hxs as [|x xs Hx Hxs], Hys as [|y ys Hy Hys]; [done| | |].
  - rewrite bool_decide_eq_true_2, bool_decide_eq_false_2 in Heq by done.
    apply (f_equal bytes) in Heq. rewrite bytes_concat_rendered, bytes_rendered in Heq.
    done.
  - rewrite bool_decide_eq_false_2, bool_decide_eq_true_2 in Heq by done.
    apply (f_equal bytes) in Heq. rewrite bytes_concat_rendered, bytes_rendered in Heq.
    done.
  - rewrite !bool_decide_eq_false_2 in Heq by done.
    apply (f_equal bytes) in Heq. rewrite !bytes_concat_rendered in Heq.
    destruct (rendered_inj_step x y _ _ Hx Hy Heq) as [-> Hrest].
    f_equal. by apply joinTail_inj.
Qed.

(** ** The cache is transparent *)

(** X11: the cache never changes what [Wildcard] returns.  After every
    history of calls, [Wildcard] returns for an input the comma-join of the
    rendered columns that the resolver computes for the type of the input
    (nothing for the nil interface), whether the type is cached, was
    evicted, or was never asked for. *)
Theorem Wildcard_cache_transparent (args : list iface) (arg : iface) :
  ∃ c c', runFields wildcardsCache args = Some c ∧
          Wildcard c arg
          = Some (c', String.concat "," (rendered <$> expected arg)).
Proof.
  destruct (runFields_wildcardsCache args) as (c & Hrun & Hok & Hsound & Hc).
  destruct (Fields_ok c arg Hok) as (c' & out & Hcall & _ & _); [lia|].
  exists c, c'. split; [exact Hrun|].
  assert (out = expected arg) as ->.
  { destruct arg as [gv|].
    - by destruct (Fields_sound c c' gv out Hok Hsound Hcall).
    - rewrite Fields_nil in Hcall. by simplify_eq. }
  unfold Wildcard. rewrite Hcall, joinColumns_total.
  case_bool_decide as Hlen; [|done].
  by destruct (expected arg).
Qed.

End pgtools.

(** * Concrete runs *)

(** C1, as the spec words it, fails: the path [[1]] is a strict prefix of
    [[1; 2]], and the comparator puts [[1; 2]] first. *)
Lemma prefix_path_sorts_last :
  less [1] [1; 2] = false ∧
  less [1; 2] [1] = true ∧
  fieldsFrom [Column [1] "c"; Column [1; 2] "c.d"] = ["c.d"; "c"]%string.
Proof. repeat split. Qed.

Lemma rangeABC_is_range : mapRange (GetColumnToFieldIndexMap id typeABC) rangeABC.
Proof.
  unfold mapRange.
  replace (entryColumn <$> map_to_list (GetColumnToFieldIndexMap id typeABC))
    with [Column [2; 1] "C.E"; Column [2; 0] "C.D"; Column [0] "A"; Column [1] "B"]
    by (vm_compute; reflexivity).
  unfold rangeABC. apply NoDup_Permutation.
  - refine (bool_decide_unpack _ _). vm_compute. exact I.
  - refine (bool_decide_unpack _ _). vm_compute. exact I.
  - intros x. rewrite !elem_of_cons. tauto.
Qed.

Lemma fields_declaration_order_ABC :
  NoDup (walk id EmptyString [] typeABC).*1 ∧
  mapRange (GetColumnToFieldIndexMap id typeABC) rangeABC ∧
  fieldsFrom rangeABC = ["A"; "B"; "C.D"; "C.E"]%string.
Proof.
  assert (NoDup (walk id EmptyString [] typeABC).*1) as Hnd.
  { refine (bool_decide_unpack _ _). vm_compute. exact I. }
  split; [exact Hnd|]. split; [exact rangeABC_is_range|].
  destruct (fields_declaration_order id typeABC rangeABC rangeABC_is_range) as [_ Hall].
  exact (Hall Hnd).
Defined.

Lemma cacheBA_ok : cache_ok cacheBA.
Proof. unfold cache_ok. refine (bool_decide_unpack _ _). vm_compute. exact I. Qed.

(** C2 on [cacheBA], which is full: asking for [typeC] evicts [typeA] at
    the back; asking for [typeA] first and for [typeC] then keeps [typeA]
    and evicts [typeB]. *)
Lemma Fields_lru_cap2 :
  cache_ok cacheBA ∧
  (∃ e, Fields toLower cacheBA (valueOf typeC)
        = Some ({| cap := 2;
                   m := <[typeC := e]> (delete typeA (m cacheBA));
                   l := [e; elemB] |},
                ["zip"]%string)) ∧
  (∃ c1 out1 c2 out2,
     Fields toLower cacheBA (valueOf typeA) = Some (c1, out1) ∧
     Fields toLower c1 (valueOf typeC) = Some (c2, out2) ∧
     m c2 !! typeA = Some elemA ∧ elemA ∈ l c2 ∧
     m c2 !! typeB = None ∧ elemB ∉ l c2).
Proof.
  split; [exact cacheBA_ok|]. split.
  - destruct (Fields_lru toLower cacheBA {| dynType := typeC; isNilPtr := false |} cacheBA_ok)
      as (Hmiss & _ & _).
    destruct (Hmiss [elemB] elemA) as (e & Hrun & _);
      [reflexivity | reflexivity | vm_compute; reflexivity |].
    exists e. exact Hrun.
  - destruct (Fields_lru toLower cacheBA {| dynType := typeA; isNilPtr := false |} cacheBA_ok)
      as (_ & _ & Hprot).
    apply (Hprot [] elemB elemA {| dynType := typeC; isNilPtr := false |});
      [reflexivity | reflexivity | vm_compute; reflexivity | vm_compute; reflexivity].
Defined.

(** C5 on an [int]: unsupported, so no columns and the empty string. *)
Lemma Fields_unsupported_int :
  supported (valueOf (TBasic "int")) = false ∧
  ∃ c c', runFields toLower wildcardsCache [valueOf typeA] = Some c ∧
          Fields toLower c (valueOf (TBasic "int")) = Some (c', []) ∧
          Wildcard toLower c (valueOf (TBasic "int")) = Some (c', EmptyString).
Proof.
  split; [reflexivity|].
  apply (Fields_unsupported_input toLower [valueOf typeA] (valueOf (TBasic "int"))).
  reflexivity.
Defined.

Lemma Fields_typeUser :
  ∃ c', Fields toLower wildcardsCache (valueOf typeUser) = Some (c', columnsUser).
Proof. eexists. vm_compute. reflexivity. Qed.

(** C6 on the concrete scenario. *)
Lemma Wildcard_typeUser :
  ∃ c', Fields toLower wildcardsCache (valueOf typeUser) = Some (c', columnsUser) ∧
        columnsUser ≠ [] ∧
        Wildcard toLower wildcardsCache (valueOf typeUser)
        = Some (c', dquote +:+ "id" +:+ dquote +:+ "," +:+
                    dquote +:+ "name" +:+ dquote +:+ "," +:+
                    dquote +:+ "address.city" +:+ dquote +:+ " as " +:+
                    dquote +:+ "address.city" +:+ dquote +:+ "," +:+
                    dquote +:+ "address.zip" +:+ dquote +:+ " as " +:+
                    dquote +:+ "address.zip" +:+ dquote).
Proof.
  destruct Fields_typeUser as [c' Hrun]. exists c'.
  assert (columnsUser ≠ []) as Hne by done.
  split; [exact Hrun|]. split; [exact Hne|].
  destruct (Wildcard_joins_columns toLower wildcardsCache c' (valueOf typeUser)
              columnsUser Hrun Hne) as [Hw _].
  rewrite Hw. f_equal.
Defined.

(** C7 on [typeABC], after a history of two other calls. *)
Lemma resolution_deterministic_ABC :
  mapRange (GetColumnToFieldIndexMap id (argType {| dynType := typeABC; isNilPtr := false |}))
    rangeABC ∧
  ∃ c c1 c2,
    runFields id wildcardsCache [valueOf typeA; None] = Some c ∧
    Fields id c (valueOf typeABC) = Some (c1, fieldsFrom rangeABC) ∧
    is_Some (m c1 !! typeABC) ∧
    Fields id c1 (valueOf typeABC) = Some (c2, fieldsFrom rangeABC).
Proof.
  split; [exact rangeABC_is_range|].
  exact (resolution_deterministic id [valueOf typeA; None]
           {| dynType := typeABC; isNilPtr := false |} rangeABC rangeABC_is_range).
Defined.

(** Declaration order is not alphabetical order. *)
Example fields_zip_before_city :
  fields toLower
    (TStruct [SField "Zip" None false false (TBasic "string");
              SField "City" None false false (TBasic "string")])
  = ["zip"; "city"]%string.
Proof. vm_compute. reflexivity. Qed.

(** An ignored field contributes nothing, an opaque composite is one
    column, and an override replaces the derived name, also as a prefix. *)
Example fields_annotations :
  fields toLower
    (TStruct [SField "ID" (Some "user_id") false false (TBasic "string");
              SField "Secret" None true false
                (TStruct [SField "Key" None false false (TBasic "string")]);
              SField "Meta" None false true
                (TStruct [SField "Raw" None false false (TBasic "string")]);
              SField "Audit" (Some "log") false false
                (TStruct [SField "Created" None false false (TBasic "time")])])
  = ["user_id"; "meta"; "log.created"]%string.
Proof. vm_compute. reflexivity. Qed.

(** While the first caller holds the mutex the second cannot move. *)
Example second_caller_blocked :
  runSchedule toLower (initWorld twoCallers) [0; 1; 0; 1]%nat = None.
Proof. vm_compute. reflexivity. Qed.

(** C10 on this interleaving. *)
Lemma concurrent_Fields_two_callers :
  ∃ w, runSchedule toLower (initWorld twoCallers) scheduleTwo = Some w ∧
       tpc <$> threads w = [Returned ["id"%string]; Returned ["id"%string]] ∧
       (csCount (threads w) ≤ 1)%nat ∧
       Forall (λ th, touches (tpc th) = true → mu w = true ∧ inCS (tpc th) = true)
         (threads w) ∧
       (mu w = false →
        ∃ hist, runFields toLower wildcardsCache hist = Some (cache w) ∧
                cache_ok (cache w)) ∧
       Forall (λ th, tpc th ≠ Panicked ∧
                     ∀ out, tpc th = Returned out → out = expected toLower (targ th))
         (threads w).
Proof.
  destruct (runSchedule toLower (initWorld twoCallers) scheduleTwo) as [w|] eqn:Hrun;
    [|by vm_compute in Hrun].
  exists w. split; [reflexivity|].
  split; [by vm_compute in Hrun; injection Hrun as <-|].
  apply (concurrent_Fields_serial toLower twoCallers w).
  by apply (runSchedule_steps toLower _ _ scheduleTwo).
Defined.

(** * Concrete runs of the properties beyond the claims *)

(** X3 on the paths of [C.D] and [C.E]. *)
Lemma less_lexLess_siblings : less [2; 0] [2; 1] = lexLess [2; 0] [2; 1].
Proof.
  apply less_lexLess.
  - intros [k Hk]. simpl in Hk. discriminate.
  - intros [k Hk]. simpl in Hk. discriminate.
Defined.

(** X4 on the map of [typeABC]. *)
Lemma fieldsFrom_map_keys_ABC :
  fieldsFrom rangeABC ≡ₚ (map_to_list (GetColumnToFieldIndexMap id typeABC)).*1 ∧
  NoDup (fieldsFrom rangeABC) ∧
  length (fieldsFrom rangeABC) = size (GetColumnToFieldIndexMap id typeABC).
Proof.
  exact (fieldsFrom_map_keys (GetColumnToFieldIndexMap id typeABC) rangeABC
           rangeABC_is_range).
Defined.

(** X6 on the columns of the concrete scenario: grown to 32 bytes, 75
    bytes built. *)
Lemma Wildcard_longer_than_grown_user :
  growSize columnsUser = 32 ∧
  ∃ out, joinColumns columnsUser = Some out ∧ len out = 75 ∧
         growSize columnsUser + 2 * Z.of_nat (length columnsUser) ≤ len out.
Proof.
  split; [reflexivity|].
  destruct (joinColumns columnsUser) as [out|] eqn:Hout; [|by vm_compute in Hout].
  exists out. split; [reflexivity|].
  destruct (Wildcard_longer_than_grown columnsUser out Hout) as [Hlen Hge]; [done|].
  split; [|exact Hge]. rewrite Hlen. reflexivity.
Defined.

(** X7 on an [int]: no column, the empty string. *)
Lemma Wildcard_empty_iff_int :
  ∃ c', Fields toLower wildcardsCache (valueOf (TBasic "int")) = Some (c', []) ∧
        Wildcard toLower wildcardsCache (valueOf (TBasic "int")) = Some (c', EmptyString).
Proof.
  destruct (Fields toLower wildcardsCache (valueOf (TBasic "int"))) as [[c' elems]|] eqn:Hcall;
    [|by vm_compute in Hcall].
  assert (elems = []) as -> by (vm_compute in Hcall; by simplify_eq).
  exists c'. split; [reflexivity|].
  by apply (Wildcard_empty_iff toLower wildcardsCache c' (valueOf (TBasic "int")) []).
Defined.

(** X8 on the two callers, the first of them past [Lock] and the second
    waiting for the mutex. *)
Lemma Fields_no_deadlock_two_callers :
  ∃ w, runSchedule toLower (initWorld twoCallers) [0; 1; 0]%nat = Some w ∧
       mu w = true ∧ ∃ w', step toLower w w'.
Proof.
  destruct (runSchedule toLower (initWorld twoCallers) [0; 1; 0]%nat) as [w|] eqn:Hrun;
    [|by vm_compute in Hrun].
  exists w. split; [reflexivity|].
  split; [by vm_compute in Hrun; injection Hrun as <-|].
  apply (Fields_no_deadlock toLower twoCallers w).
  - by apply (runSchedule_steps toLower _ _ [0; 1; 0]%nat).
  - vm_compute in Hrun. injection Hrun as <-. eexists 1%nat, _. split; [reflexivity|]. done.
Defined.

(** X9 on the same state: the first caller is out after at most nine
    steps of its own. *)
Lemma critical_section_ends_two_callers :
  ∃ w, runSchedule toLower (initWorld twoCallers) [0; 1; 0]%nat = Some w ∧
       ∃ k w', (k ≤ 9)%nat ∧
               runSchedule toLower w (replicate k 0%nat) = Some w' ∧ mu w' = false.
Proof.
  destruct (runSchedule toLower (initWorld twoCallers) [0; 1; 0]%nat) as [w|] eqn:Hrun;
    [|by vm_compute in Hrun].
  exists w. split; [reflexivity|].
  assert (∃ th, threads w !! 0%nat = Some th ∧ inCS (tpc th) = true) as (th & Hth & Hcs).
  { vm_compute in Hrun. injection Hrun as <-. eexists. split; [reflexivity|]. done. }
  destruct (critical_section_ends toLower w 0 th Hth Hcs) as (k & w' & Hk & Hend & Hmu & _).
  by exists k, w'.
Defined.

(** X10 on the columns of the concrete scenario. *)
Lemma joinColumns_injective_user :
  Forall quoteFree columnsUser ∧
  (joinColumns ["id"; "name"; "address.city"; "address.zip"]%string
   = joinColumns columnsUser →
   ["id"; "name"; "address.city"; "address.zip"]%string = columnsUser).
Proof.
  assert (Forall quoteFree columnsUser) as Hfree.
  { unfold columnsUser, quoteFree.
    repeat constructor; refine (bool_decide_unpack _ _); vm_compute; exact I. }
  split; [exact Hfree|].
  exact (joinColumns_injective _ columnsUser Hfree Hfree).
Defined.

(** Recency of a sequence of uses: the last use first. *)
Example recency_ABAC :
  recency [typeA; typeB; typeA; typeC] = [typeC; typeA; typeB].
Proof. vm_compute. reflexivity. Qed.
